(** * MotionBridge: the non-linear timeline scale and the editor around it

    A shallow embedding of [createVisualTimeScale] (components/HandoffSpec.tsx)
    and of the copy of the same computation that [handleDownloadHTML]
    (App.tsx) inlines for the HTML export, together with the properties the
    specification states about them; then the code around the scale: the
    bars that both places draw from it, the handlers of the editor
    (components/PropertyControls.tsx) that produce its input, the project
    state and the resizable layout of App.tsx, and the coordinates of the
    bezier editor (components/BezierEditor.tsx).

    Numbers.  A TypeScript [number] is modelled by an exact rational [Q]:
    the finite values, without rounding.  Two rationals that are [Qeq] denote
    the same number, so every comparison of the source ([>=], [<=], the
    SameValueZero test of [Set.add], the truthiness test of [||]) is the
    boolean test of [QArith] and results are stated up to [==].  The only
    operation of the source that can leave the finite values is [/]: a zero
    divisor gives NaN or an infinity.  [jsdiv] returns [None] there, and the
    percent function runs in the option monad.  A division by a literal that
    is not zero is the division of [Q]. *)

From Stdlib Require Import String.
From Stdlib Require Import QArith Qminmax Lqa.
From Stdlib Require Import List Bool PeanoNat Lia.
From Stdlib Require Import Sorted Permutation Setoid.
Import ListNotations.

Open Scope Q_scope.

(** ** JavaScript primitives used by the scale *)

(** [a / b]: finite when the divisor is not zero. *)
Definition jsdiv (a b : Q) : option Q :=
  if Qeq_bool b 0 then None else Some (a / b).

(** [v || d] on numbers: [d] when [v] is zero. *)
Definition or_else (v d : Q) : Q :=
  if Qeq_bool v 0 then d else v.

Definition bind {A B : Type} (c : option A) (k : A -> option B) : option B :=
  match c with
  | Some a => k a
  | None => None
  end.

Notation "x <- c ;; k" := (bind c (fun x => k))
  (at level 61, c at next level, right associativity).

(** A [Set<number>] in insertion order; [Set_add] keeps the first of two
    equal numbers, as [Set.prototype.add] does. *)
Definition Set_has (s : list Q) (v : Q) : bool :=
  existsb (Qeq_bool v) s.

Definition Set_add (s : list Q) (v : Q) : list Q :=
  if Set_has s v then s else s ++ [v].

(** [Array.prototype.sort((a, b) => a - b)]: a stable ascending sort. *)
Fixpoint insert (a : Q) (l : list Q) : list Q :=
  match l with
  | [] => [a]
  | b :: l' => if Qle_bool a b then a :: l else b :: insert a l'
  end.

Fixpoint sort (l : list Q) : list Q :=
  match l with
  | [] => []
  | a :: l' => insert a (sort l')
  end.

(** [Array.prototype.findIndex]; [None] stands for [-1]. *)
Fixpoint findIndex {A : Type} (p : A -> bool) (l : list A) : option nat :=
  match l with
  | [] => None
  | a :: l' => if p a then Some 0%nat else option_map S (findIndex p l')
  end.

(** ** types.ts *)

Inductive PropertyType : Set :=
| PT_opacity | PT_scale | PT_x | PT_y | PT_rotate | PT_json | PT_video
| PT_custom.

Record AnimatedProperty : Type := {
  id : string;
  type : PropertyType;
  customName : option string;
  from : Q;
  to : Q;
  assetName : option string;
  note : option string;
  delay : Q;
  duration : Q;
  bezier : Q * Q * Q * Q
}.

Record AnimationTrack : Type := {
  track_id : string;
  track_name : string;
  properties : list AnimatedProperty
}.

Record AnimationGroup : Type := {
  group_id : string;
  group_name : string;
  tracks : list AnimationTrack
}.

(** [DEFAULT_PROPERTY] with the given id and times. *)
Definition mkProperty (i : string) (d dur : Q) : AnimatedProperty :=
  {| id := i; type := PT_opacity; customName := None;
     from := 0; to := 1; assetName := None; note := None;
     delay := d; duration := dur;
     bezier := (25 # 100, 1 # 10, 25 # 100, 1) |}.

Definition mkTrack (i : string) (ps : list AnimatedProperty) : AnimationTrack :=
  {| track_id := i; track_name := i; properties := ps |}.

Record ProjectState : Type := {
  groups : list AnimationGroup;
  activeGroupId : string
}.

(** [getPropertyTimes]: the object [{ start, end }]. *)
Record PropertyTimes : Type := { start : Q; end_ : Q }.

Definition getPropertyTimes (prop : AnimatedProperty) : PropertyTimes :=
  {| start := delay prop; end_ := delay prop + duration prop |}.

(** A [Partial<AnimatedProperty>]: for each key, [None] when the object does
    not have it.  An optional field of the property has two levels: a key
    that is present may hold [undefined]. *)
Record PartialProperty : Type := {
  set_id : option string;
  set_type : option PropertyType;
  set_customName : option (option string);
  set_from : option Q;
  set_to : option Q;
  set_assetName : option (option string);
  set_note : option (option string);
  set_delay : option Q;
  set_duration : option Q;
  set_bezier : option (Q * Q * Q * Q)
}.

Definition noUpdates : PartialProperty :=
  {| set_id := None; set_type := None; set_customName := None;
     set_from := None; set_to := None; set_assetName := None;
     set_note := None; set_delay := None; set_duration := None;
     set_bezier := None |}.

Definition or_keep {A : Type} (u : option A) (v : A) : A :=
  match u with
  | Some w => w
  | None => v
  end.

(** The object spread [{ ...p, ...updates }]. *)
Definition assign (p : AnimatedProperty) (updates : PartialProperty)
  : AnimatedProperty :=
  {| id := or_keep (set_id updates) (id p);
     type := or_keep (set_type updates) (type p);
     customName := or_keep (set_customName updates) (customName p);
     from := or_keep (set_from updates) (from p);
     to := or_keep (set_to updates) (to p);
     assetName := or_keep (set_assetName updates) (assetName p);
     note := or_keep (set_note updates) (note p);
     delay := or_keep (set_delay updates) (delay p);
     duration := or_keep (set_duration updates) (duration p);
     bezier := or_keep (set_bezier updates) (bezier p) |}.

(** [Array.prototype.splice(i, 1)] and [Array.prototype.splice(i, 0, x)] on
    a copy of the array, and the assignment [a[i] = x] at an index of the
    array. *)
Definition splice_remove {A : Type} (i : nat) (l : list A) : list A :=
  firstn i l ++ skipn (S i) l.

Definition splice_insert {A : Type} (i : nat) (x : A) (l : list A) : list A :=
  firstn i l ++ x :: skipn i l.

Definition array_set {A : Type} (i : nat) (x : A) (l : list A) : list A :=
  firstn i l ++ x :: skipn (S i) l.

Record VisualMapping : Type := { real : Q; visual : Q }.

Definition origin : VisualMapping := {| real := 0; visual := 0 |}.

(** What [createVisualTimeScale] returns: [{ getPercent, totalDuration }]. *)
Record TimeScale : Type := {
  getPercent : Q -> option Q;
  totalDuration : Q
}.

(** The position of a property bar on the timeline, in percent. *)
Record Bar : Type := {
  leftPercent : Q;
  widthPercent : Q;
  isRightAligned : bool
}.

(** The field [getPercent] of a scale, under a name that the modules below
    do not redefine. *)
Definition TimeScale_getPercent (scale : TimeScale) : Q -> option Q :=
  getPercent scale.

(** ** components/HandoffSpec.tsx: [createVisualTimeScale] *)

Module HandoffSpec.

Section Scale.

Variable tracks : list AnimationTrack.

Definition allProps : list AnimatedProperty :=
  flat_map properties tracks.

(** 1. the significant time points, seeded with [0] *)
Definition timePoints : list Q :=
  fold_left
    (fun s p => Set_add (Set_add s (delay p)) (delay p + duration p))
    allProps [0].

Definition sortedPoints : list Q := sort timePoints.

(** [sortedPoints[sortedPoints.length - 1] || 0]; the array is never
    empty, so the index is in range. *)
Definition maxRealDuration : Q :=
  or_else (nth (length sortedPoints - 1) sortedPoints 0) 0.

Definition MAX_EMPTY_GAP_VISUAL : Q := 60.

(** [allProps.some(p => mid >= p.delay && mid <= p.delay + p.duration)] *)
Definition isActive (mid : Q) : bool :=
  existsb
    (fun p => Qle_bool (delay p) mid && Qle_bool mid (delay p + duration p))
    allProps.

Definition visualDuration (tStart tEnd : Q) : Q :=
  let mid := (tStart + tEnd) / 2 in
  let realDuration := tEnd - tStart in
  if isActive mid then realDuration
  else Qmin realDuration MAX_EMPTY_GAP_VISUAL.

(** 2. one turn of the [for] loop, on the pair [(visualMap, currentVisual)];
    [i] and [i + 1] are below the length of [sortedPoints]. *)
Definition loop_body (st : list VisualMapping * Q) (i : nat)
  : list VisualMapping * Q :=
  let '(visualMap, currentVisual) := st in
  let tStart := nth i sortedPoints 0 in
  let tEnd := nth (i + 1) sortedPoints 0 in
  let currentVisual := currentVisual + visualDuration tStart tEnd in
  (visualMap ++ [{| real := tEnd; visual := currentVisual |}], currentVisual).

Definition loop : list VisualMapping * Q :=
  fold_left loop_body (seq 0 (length sortedPoints - 1))
    ([{| real := 0; visual := 0 |}], 0).

Definition visualMap : list VisualMapping := fst loop.
Definition currentVisual : Q := snd loop.

Definition totalVisualDuration : Q := or_else currentVisual 100.

(** 3. the mapping function; the two array reads are in range, the default
    of [nth] is never returned. *)
Definition getPercent (realTime : Q) : option Q :=
  match findIndex (fun m => Qle_bool realTime (real m)) visualMap with
  | None => Some 100
  | Some O => Some 0
  | Some (S j as segmentIndex) =>
      let endPoint := nth segmentIndex visualMap origin in
      let startPoint := nth j visualMap origin in
      let segmentRealDuration := real endPoint - real startPoint in
      let segmentVisualDuration := visual endPoint - visual startPoint in
      progressInSegment <-
        jsdiv (realTime - real startPoint) segmentRealDuration ;;
      let visualTime :=
        visual startPoint + progressInSegment * segmentVisualDuration in
      r <- jsdiv visualTime totalVisualDuration ;;
      Some (r * 100)
  end.

Definition createVisualTimeScale : TimeScale :=
  Build_TimeScale getPercent maxRealDuration.

End Scale.

(** The bar that the component draws for a property of the group:
    [left: leftPercent%], [width: widthPercent%] and the side its label is
    anchored to. *)
Section Render.

Variable group : AnimationGroup.

Definition propertyBar (prop : AnimatedProperty) : option Bar :=
  let scale := createVisualTimeScale (tracks group) in
  leftPercent <- TimeScale_getPercent scale (delay prop) ;;
  rightPercent <-
    TimeScale_getPercent scale (delay prop + duration prop) ;;
  let widthPercent := rightPercent - leftPercent in
  let isRightAligned := negb (Qle_bool leftPercent 60) in
  Some (Build_Bar leftPercent widthPercent isRightAligned).

End Render.

End HandoffSpec.

(** ** App.tsx: the scale that [handleDownloadHTML] rebuilds for each group *)

Module App.

Section HandleDownloadHTML.

Variable group : AnimationGroup.

Definition allProps : list AnimatedProperty :=
  flat_map properties (tracks group).

Definition timePoints : list Q :=
  fold_left
    (fun s p => Set_add (Set_add s (delay p)) (delay p + duration p))
    allProps [0].

Definition sortedPoints : list Q := sort timePoints.

Definition maxRealDuration : Q :=
  or_else (nth (length sortedPoints - 1) sortedPoints 0) 0.

Definition MAX_EMPTY_GAP_VISUAL : Q := 60.

Definition loop_body (st : list VisualMapping * Q) (i : nat)
  : list VisualMapping * Q :=
  let '(visualMap, currentVisual) := st in
  let tStart := nth i sortedPoints 0 in
  let tEnd := nth (i + 1) sortedPoints 0 in
  let mid := (tStart + tEnd) / 2 in
  let isActive :=
    existsb
      (fun p =>
         Qle_bool (delay p) mid && Qle_bool mid (delay p + duration p))
      allProps in
  let realDuration := tEnd - tStart in
  let visualDuration :=
    if isActive then realDuration
    else Qmin realDuration MAX_EMPTY_GAP_VISUAL in
  let currentVisual := currentVisual + visualDuration in
  (visualMap ++ [{| real := tEnd; visual := currentVisual |}], currentVisual).

Definition loop : list VisualMapping * Q :=
  fold_left loop_body (seq 0 (length sortedPoints - 1))
    ([{| real := 0; visual := 0 |}], 0).

Definition visualMap : list VisualMapping := fst loop.
Definition currentVisual : Q := snd loop.

Definition totalVisualDuration : Q := or_else currentVisual 100.

Definition getPercent (realTime : Q) : option Q :=
  match findIndex (fun m => Qle_bool realTime (real m)) visualMap with
  | None => Some 100
  | Some O => Some 0
  | Some (S j as segmentIndex) =>
      let endPoint := nth segmentIndex visualMap origin in
      let startPoint := nth j visualMap origin in
      let segmentRealDuration := real endPoint - real startPoint in
      let segmentVisualDuration := visual endPoint - visual startPoint in
      progressInSegment <-
        jsdiv (realTime - real startPoint) segmentRealDuration ;;
      let visualTime :=
        visual startPoint + progressInSegment * segmentVisualDuration in
      r <- jsdiv visualTime totalVisualDuration ;;
      Some (r * 100)
  end.

End HandleDownloadHTML.

Section ExportBars.

Variable group : AnimationGroup.

(** The bar of a property in the exported HTML. *)
Definition propertyBar (prop : AnimatedProperty) : option Bar :=
  leftPercent <- getPercent group (delay prop) ;;
  rightPercent <- getPercent group (delay prop + duration prop) ;;
  let widthPercent := rightPercent - leftPercent in
  let isRightAligned := negb (Qle_bool leftPercent 60) in
  Some (Build_Bar leftPercent widthPercent isRightAligned).

End ExportBars.

(** The project state and its updates. *)

(** [project.groups.find(g => g.id === project.activeGroupId)
     || project.groups[0]]; [None] is [undefined]. *)
Definition activeGroup (project : ProjectState) : option AnimationGroup :=
  match
    find (fun g => String.eqb (group_id g) (activeGroupId project))
      (groups project)
  with
  | Some g => Some g
  | None => nth_error (groups project) 0
  end.

Definition updateActiveGroup (newGroup : AnimationGroup) (prev : ProjectState)
  : ProjectState :=
  {| groups :=
       map (fun g =>
              if String.eqb (group_id g) (group_id newGroup)
              then newGroup else g)
         (groups prev);
     activeGroupId := activeGroupId prev |}.

(** [newId] is the string built from [Date.now()], [newName] the name
    literal of the source. *)
Definition addGroup (newId newName : string) (prev : ProjectState)
  : ProjectState :=
  let newGroup :=
    {| group_id := newId; group_name := newName; tracks := [] |} in
  {| groups := groups prev ++ [newGroup]; activeGroupId := newId |}.

(** [deleteGroup]: the next project state.  With at most one group nothing
    is set; [None] when [newGroups[0].id] reads a field of [undefined],
    which throws. *)
Definition deleteGroup (i : string) (project : ProjectState)
  : option ProjectState :=
  if Nat.leb (length (groups project)) 1 then Some project
  else
    let newGroups :=
      filter (fun g => negb (String.eqb (group_id g) i)) (groups project) in
    match nth_error newGroups 0 with
    | Some g0 =>
        Some {| groups := newGroups; activeGroupId := group_id g0 |}
    | None => None
    end.

(** The resizable layout: the state of the three [useState] cells and the
    [mousemove] listener. *)
Inductive Panel : Set := sidebar | editor.

Record Layout : Type := {
  sidebarWidth : Q;
  editorWidth : Q;
  isResizing : option Panel
}.

Definition initialLayout : Layout :=
  {| sidebarWidth := 260; editorWidth := 450; isResizing := None |}.

Definition startResizing (panel : Panel) (st : Layout) : Layout :=
  {| sidebarWidth := sidebarWidth st; editorWidth := editorWidth st;
     isResizing := Some panel |}.

Definition stopResizing (st : Layout) : Layout :=
  {| sidebarWidth := sidebarWidth st; editorWidth := editorWidth st;
     isResizing := None |}.

Definition resize (clientX : Q) (st : Layout) : Layout :=
  match isResizing st with
  | Some sidebar =>
      let newWidth := Qmax 200 (Qmin 400 clientX) in
      {| sidebarWidth := newWidth; editorWidth := editorWidth st;
         isResizing := isResizing st |}
  | Some editor =>
      let newWidth := Qmax 350 (Qmin 800 (clientX - sidebarWidth st)) in
      {| sidebarWidth := sidebarWidth st; editorWidth := newWidth;
         isResizing := isResizing st |}
  | None => st
  end.

End App.

(** ** components/PropertyControls.tsx: the handlers of the editor

    Each handler is the group that it passes to [onChange]. *)

Module PropertyControls.

Inductive TimeField : Set := F_start | F_end.

(** What a drag-over handler does: the group passed to [onChange], when it
    is called, and the next value of the handler's state. *)
Record DragOver (S : Type) : Type := {
  changed : option AnimationGroup;
  dragged : S
}.

Arguments changed {S} _.
Arguments dragged {S} _.

Section Handlers.

Variable group : AnimationGroup.

Definition withTracks (ts : list AnimationTrack) : AnimationGroup :=
  {| group_id := group_id group; group_name := group_name group;
     tracks := ts |}.

(** [newId] is the string built from [Date.now()]. *)
Definition addTrack (newId : string) : AnimationGroup :=
  let newTrack :=
    {| track_id := newId; track_name := "New Object"; properties := [] |} in
  withTracks (tracks group ++ [newTrack]).

Definition removeTrack (trackId : string) : AnimationGroup :=
  withTracks
    (filter (fun t => negb (String.eqb (track_id t) trackId)) (tracks group)).

Definition updateTrackName (trackId name : string) : AnimationGroup :=
  withTracks
    (map (fun t =>
            if String.eqb (track_id t) trackId
            then {| track_id := track_id t; track_name := name;
                    properties := properties t |}
            else t)
       (tracks group)).

(** [newId] is the string built from [Date.now()] and [Math.random()]. *)
Definition addProperty (trackId : string) (ty : PropertyType) (newId : string)
  : AnimationGroup :=
  let newProp :=
    {| id := newId; type := ty;
       customName :=
         match ty with PT_custom => Some "Blur"%string | _ => None end;
       from := 0; to := 1;
       assetName :=
         match ty with
         | PT_json => Some "animation.json"%string
         | PT_video => Some "video.mp4"%string
         | _ => None
         end;
       note := None; delay := 0; duration := 400;
       bezier := (25 # 100, 1 # 10, 25 # 100, 1) |} in
  withTracks
    (map (fun t =>
            if negb (String.eqb (track_id t) trackId) then t
            else {| track_id := track_id t; track_name := track_name t;
                    properties := properties t ++ [newProp] |})
       (tracks group)).

Definition removeProperty (trackId propId : string) : AnimationGroup :=
  withTracks
    (map (fun t =>
            if negb (String.eqb (track_id t) trackId) then t
            else {| track_id := track_id t; track_name := track_name t;
                    properties :=
                      filter (fun p => negb (String.eqb (id p) propId))
                        (properties t) |})
       (tracks group)).

Definition updateProperty (trackId propId : string) (updates : PartialProperty)
  : AnimationGroup :=
  withTracks
    (map (fun t =>
            if negb (String.eqb (track_id t) trackId) then t
            else {| track_id := track_id t; track_name := track_name t;
                    properties :=
                      map (fun p =>
                             if String.eqb (id p) propId
                             then assign p updates else p)
                        (properties t) |})
       (tracks group)).

Definition handleTimeChange (trackId propId : string) (field : TimeField)
  (value : Q) (currentProp : AnimatedProperty) : AnimationGroup :=
  let times := getPropertyTimes currentProp in
  let newDelay := start times in
  let newDuration := duration currentProp in
  let '(newDelay, newDuration) :=
    match field with
    | F_start =>
        let newDelay := Qmax 0 value in
        if Qle_bool (end_ times) newDelay
        then (newDelay, 100)
        else (newDelay, end_ times - newDelay)
    | F_end =>
        let newEnd := Qmax (start times + 10) value in
        (newDelay, newEnd - start times)
    end in
  updateProperty trackId propId
    {| set_id := None; set_type := None; set_customName := None;
       set_from := None; set_to := None; set_assetName := None;
       set_note := None; set_delay := Some newDelay;
       set_duration := Some newDuration; set_bezier := None |}.

(** The drag-over handlers run in the option monad: [None] when an index
    that the source reads is not an index of the array, where the source
    would store [undefined] as a track or a property, or throw. *)
Definition handleTrackDragOver (draggedTrackIndex : option nat) (index : nat)
  : option (DragOver (option nat)) :=
  match draggedTrackIndex with
  | None => Some {| changed := None; dragged := draggedTrackIndex |}
  | Some d =>
      if Nat.eqb d index
      then Some {| changed := None; dragged := draggedTrackIndex |}
      else
        let newTracks := tracks group in
        draggedItem <- nth_error newTracks d ;;
        let newTracks := splice_remove d newTracks in
        let newTracks := splice_insert index draggedItem newTracks in
        Some {| changed := Some (withTracks newTracks);
                dragged := Some index |}
  end.

Definition handlePropDragOver (draggedProp : option (nat * nat))
  (trackIndex propIndex : nat) : option (DragOver (option (nat * nat))) :=
  match draggedProp with
  | None => Some {| changed := None; dragged := draggedProp |}
  | Some (draggedTrackIndex, draggedPropIndex) =>
      if negb (Nat.eqb draggedTrackIndex trackIndex)
         || Nat.eqb draggedPropIndex propIndex
      then Some {| changed := None; dragged := draggedProp |}
      else
        let newTracks := tracks group in
        track <- nth_error newTracks trackIndex ;;
        let newProps := properties track in
        draggedItem <- nth_error newProps draggedPropIndex ;;
        let newProps := splice_remove draggedPropIndex newProps in
        let newProps := splice_insert propIndex draggedItem newProps in
        let newTracks :=
          array_set trackIndex
            {| track_id := track_id track; track_name := track_name track;
               properties := newProps |}
            newTracks in
        Some {| changed := Some (withTracks newTracks);
                dragged := Some (trackIndex, propIndex) |}
  end.

End Handlers.

End PropertyControls.

(** ** components/BezierEditor.tsx: the coordinates of the handles *)

Module BezierEditor.




End BezierEditor.

(** ** Auxiliary definitions for the proofs *)

(** The loop of [createVisualTimeScale] as a recursion over the consecutive
    pairs of points: the entries it pushes, starting from the accumulated
    value [cv].  [loop_walk] below relates it to [HandoffSpec.loop]. *)
Fixpoint walk (tracks : list AnimationTrack) (pts : list Q) (cv : Q)
  : list VisualMapping :=
  match pts with
  | [] => []
  | tStart :: rest =>
      match rest with
      | [] => []
      | tEnd :: _ =>
          let cv' := cv + HandoffSpec.visualDuration tracks tStart tEnd in
          {| real := tEnd; visual := cv' |} :: walk tracks rest cv'
      end
  end.

(** The value of [currentVisual] after the entries [vm] were pushed. *)
Definition final_visual (vm : list VisualMapping) (cv : Q) : Q :=
  last (map visual vm) cv.

(** The interpolation of [getPercent] between two entries. *)
Definition interpolate (total : Q) (startPoint endPoint : VisualMapping)
  (realTime : Q) : option Q :=
  let segmentRealDuration := real endPoint - real startPoint in
  let segmentVisualDuration := visual endPoint - visual startPoint in
  progressInSegment <-
    jsdiv (realTime - real startPoint) segmentRealDuration ;;
  let visualTime :=
    visual startPoint + progressInSegment * segmentVisualDuration in
  r <- jsdiv visualTime total ;;
  Some (r * 100).

(** The number it returns when neither divisor is zero. *)
Definition interpolate_value (total : Q) (startPoint endPoint : VisualMapping)
  (realTime : Q) : Q :=
  (visual startPoint
   + (realTime - real startPoint) / (real endPoint - real startPoint)
     * (visual endPoint - visual startPoint))
  / total * 100.

(** The lookup of [getPercent] past the entry [startPoint]. *)
Fixpoint interp (total : Q) (startPoint : VisualMapping)
  (rest : list VisualMapping) (realTime : Q) : option Q :=
  match rest with
  | [] => Some 100
  | endPoint :: rest' =>
      if Qle_bool realTime (real endPoint)
      then interpolate total startPoint endPoint realTime
      else interp total endPoint rest' realTime
  end.

(** A table whose real and visual components both increase strictly, read
    after the entry [prev]. *)
Inductive chain : VisualMapping -> list VisualMapping -> Prop :=
| chain_nil : forall prev, chain prev []
| chain_cons : forall prev e rest,
    real prev < real e -> visual prev < visual e -> chain e rest ->
    chain prev (e :: rest).


(** The intervals the data model allows: a start that is not negative and an
    end that is not before the start. *)
Definition valid_property (p : AnimatedProperty) : Prop :=
  0 <= delay p /\ delay p <= delay p + duration p.

Definition valid_tracks (tracks : list AnimationTrack) : Prop :=
  Forall valid_property (HandoffSpec.allProps tracks).

(** [x] is the start or the end of the interval of [p]. *)
Definition is_boundary (x : Q) (p : AnimatedProperty) : Prop :=
  x == delay p \/ x == delay p + duration p.

(** Membership and distinctness of numbers, up to [==]. *)
Definition InQ (v : Q) (l : list Q) : Prop := Exists (Qeq v) l.

Definition distinct (l : list Q) : Prop :=
  ForallOrdPairs (fun a b => ~ a == b) l.




Definition same_entry (m n : VisualMapping) : Prop :=
  real m == real n /\ visual m == visual n.

Definition same_result (a b : option Q) : Prop :=
  match a, b with
  | Some x, Some y => x == y
  | None, None => True
  | _, _ => False
  end.

(** What the project state is expected to satisfy: there is a group, the
    ids of the groups are distinct and [activeGroupId] is one of them. *)
Definition well_formed (project : ProjectState) : Prop :=
  groups project <> [] /\
  NoDup (map group_id (groups project)) /\
  In (activeGroupId project) (map group_id (groups project)).

(** The mouse events of the resizable layout and the handler that each one
    runs: [onMouseDown] of a divider, and [mousemove] and [mouseup] of the
    window. *)
Inductive LayoutEvent : Type :=
| MouseDown (panel : App.Panel)
| MouseMove (clientX : Q)
| MouseUp.

Definition layout_step (st : App.Layout) (ev : LayoutEvent) : App.Layout :=
  match ev with
  | MouseDown panel => App.startResizing panel st
  | MouseMove clientX => App.resize clientX st
  | MouseUp => App.stopResizing st
  end.

Definition layout_in_bounds (st : App.Layout) : Prop :=
  200 <= App.sidebarWidth st /\ App.sidebarWidth st <= 400 /\
  350 <= App.editorWidth st /\ App.editorWidth st <= 800.

(** ** Inputs of the scenarios *)

(** Two disjoint intervals, [0,100] and [5000,5100], on two tracks. *)
Definition gap_tracks : list AnimationTrack :=
  [mkTrack "track-1" [mkProperty "p1" 0 100];
   mkTrack "track-2" [mkProperty "p2" 5000 100]].

(** One track with the intervals [0,400] and [0,600], the times of the two
    properties of [DEFAULT_PROJECT]. *)
Definition overlap_tracks : list AnimationTrack :=
  [mkTrack "track-1" [mkProperty "p1" 0 400; mkProperty "p2" 0 600]].

(** A single interval of length zero at 500. *)
Definition point_tracks : list AnimationTrack :=
  [mkTrack "track-1" [mkProperty "p1" 500 0]].



(** A group with the tracks of [overlap_tracks], and one with those of
    [gap_tracks]. *)
Definition overlap_group : AnimationGroup :=
  {| group_id := "group-1"; group_name := "Entrance";
     tracks := overlap_tracks |}.

Definition gap_group : AnimationGroup :=
  {| group_id := "group-2"; group_name := "Exit"; tracks := gap_tracks |}.

(** The two intervals of [gap_tracks] on one track, the later one first. *)
Definition gap_tracks_swapped : list AnimationTrack :=
  [mkTrack "track-1" [mkProperty "p2" 5000 100; mkProperty "p1" 0 100]].

(** A project with the two groups above, the first one active. *)
Definition two_groups : ProjectState :=
  {| groups := [overlap_group; gap_group]; activeGroupId := "group-1" |}.


(** A track without properties. *)
Definition empty_track : list AnimationTrack := [mkTrack "track-1" []].

(** ** Arrays: [findIndex] *)

Lemma findIndex_None {A : Type} (p : A -> bool) (l : list A) :
  findIndex p l = None -> Forall (fun a => p a = false) l.
Proof.
  induction l as [|a l IH]; simpl; intros H.
  - constructor.
  - destruct (p a) eqn:Hp; [discriminate|].
    destruct (findIndex p l); [discriminate|].
    constructor; auto.
Qed.

Lemma findIndex_Some {A : Type} (p : A -> bool) (l : list A) (i : nat) (d : A) :
  findIndex p l = Some i ->
  (i < length l)%nat /\ p (nth i l d) = true /\
  forall j, (j < i)%nat -> p (nth j l d) = false.
Proof.
  revert i; induction l as [|a l IH]; simpl; intros i H; [discriminate|].
  destruct (p a) eqn:Hp.
  - injection H as <-. repeat split; [lia|assumption|lia].
  - destruct (findIndex p l) as [k|] eqn:Hk; [|discriminate].
    injection H as <-. destruct (IH k eq_refl) as (Hlt & Hk' & Hbefore).
    repeat split; [lia|assumption|].
    intros [|j] Hj; [assumption|apply Hbefore; lia].
Qed.

(** ** The loop as a walk over the sorted points *)

Lemma final_visual_cons e vm cv :
  final_visual (e :: vm) cv = final_visual vm (visual e).
Proof.
  unfold final_visual. cbn [map].
  generalize (visual e) as v, (map visual vm) as l.
  intros v l; revert v cv; induction l as [|w l IH]; intros v d; [reflexivity|].
  change (last (v :: w :: l) d) with (last (w :: l) d).
  now rewrite !IH.
Qed.

Lemma loop_walk_gen tracks :
  forall pts pre vm cv,
    HandoffSpec.sortedPoints tracks = pre ++ pts ->
    fold_left (HandoffSpec.loop_body tracks)
      (seq (length pre) (length pts - 1)) (vm, cv)
    = (vm ++ walk tracks pts cv, final_visual (walk tracks pts cv) cv).
Proof.
  induction pts as [|a rest IH]; intros pre vm cv Hs.
  - simpl. now rewrite app_nil_r.
  - destruct rest as [|b r].
    + simpl. now rewrite app_nil_r.
    + replace (length (a :: b :: r) - 1)%nat with (S (length (b :: r) - 1))
        by (simpl; lia).
      cbn [seq fold_left].
      assert (Hst : HandoffSpec.loop_body tracks (vm, cv) (length pre) =
                    (vm ++ [{| real := b;
                               visual :=
                                 cv + HandoffSpec.visualDuration tracks a b |}],
                     cv + HandoffSpec.visualDuration tracks a b)).
      { unfold HandoffSpec.loop_body. rewrite Hs, nth_middle.
        rewrite app_nth2 by lia.
        now replace (length pre + 1 - length pre)%nat with 1%nat by lia. }
      rewrite Hst.
      specialize (IH (pre ++ [a])).
      rewrite length_app in IH. cbn [length] in IH.
      replace (length pre + 1)%nat with (S (length pre)) in IH by lia.
      rewrite IH by (now rewrite <- app_assoc).
      rewrite <- app_assoc.
      change (walk tracks (a :: b :: r) cv) with
        ({| real := b; visual := cv + HandoffSpec.visualDuration tracks a b |}
           :: walk tracks (b :: r)
                (cv + HandoffSpec.visualDuration tracks a b)).
      now rewrite final_visual_cons.
Qed.

Lemma loop_walk tracks :
  HandoffSpec.loop tracks =
  (origin :: walk tracks (HandoffSpec.sortedPoints tracks) 0,
   final_visual (walk tracks (HandoffSpec.sortedPoints tracks) 0) 0).
Proof.
  unfold HandoffSpec.loop.
  exact (loop_walk_gen tracks (HandoffSpec.sortedPoints tracks) [] [origin] 0
           eq_refl).
Qed.

Lemma visualMap_walk tracks :
  HandoffSpec.visualMap tracks =
  origin :: walk tracks (HandoffSpec.sortedPoints tracks) 0.
Proof. unfold HandoffSpec.visualMap. now rewrite loop_walk. Qed.

Lemma currentVisual_walk tracks :
  HandoffSpec.currentVisual tracks =
  final_visual (walk tracks (HandoffSpec.sortedPoints tracks) 0) 0.
Proof. unfold HandoffSpec.currentVisual. now rewrite loop_walk. Qed.

(** Every array read of the source is in range: the defaults of [nth] in
    [loop_body] and [getPercent] are never returned. *)
Lemma loop_reads_in_range tracks i :
  In i (seq 0 (length (HandoffSpec.sortedPoints tracks) - 1)) ->
  (i + 1 < length (HandoffSpec.sortedPoints tracks))%nat.
Proof. intros H. apply in_seq in H. lia. Qed.

Lemma getPercent_reads_in_range tracks t segmentIndex :
  findIndex (fun m => Qle_bool t (real m)) (HandoffSpec.visualMap tracks)
  = Some segmentIndex ->
  (segmentIndex < length (HandoffSpec.visualMap tracks))%nat.
Proof. intros H. now apply (findIndex_Some _ _ _ origin) in H. Qed.

(** ** The lookup as a scan of the table *)

Lemma findIndex_interp total t :
  forall rest prev,
    match findIndex (fun m => Qle_bool t (real m)) rest with
    | None => Some 100
    | Some j =>
        interpolate total (nth j (prev :: rest) origin) (nth j rest origin) t
    end = interp total prev rest t.
Proof.
  induction rest as [|e rest IH]; intros prev; simpl; [reflexivity|].
  destruct (Qle_bool t (real e)); [reflexivity|].
  rewrite <- IH.
  destruct (findIndex _ rest); reflexivity.
Qed.

Lemma getPercent_interp tracks t :
  HandoffSpec.getPercent tracks t =
  if Qle_bool t 0 then Some 0
  else interp (HandoffSpec.totalVisualDuration tracks) origin
         (walk tracks (HandoffSpec.sortedPoints tracks) 0) t.
Proof.
  unfold HandoffSpec.getPercent. rewrite visualMap_walk.
  simpl findIndex. change (real origin) with 0.
  destruct (Qle_bool t 0); [reflexivity|].
  rewrite <- findIndex_interp.
  destruct (findIndex _ _); reflexivity.
Qed.

(** ** Division never meets a zero divisor *)

Lemma jsdiv_Some a b : ~ b == 0 -> jsdiv a b = Some (a / b).
Proof.
  intros Hb. unfold jsdiv.
  destruct (Qeq_bool b 0) eqn:E; [|reflexivity].
  apply Qeq_bool_iff in E. contradiction.
Qed.

Lemma or_else_nonzero v d : ~ d == 0 -> ~ or_else v d == 0.
Proof.
  intros Hd. unfold or_else.
  destruct (Qeq_bool v 0) eqn:E; [assumption|].
  intros H. apply Qeq_bool_iff in H. congruence.
Qed.

Lemma totalVisualDuration_nonzero tracks :
  ~ HandoffSpec.totalVisualDuration tracks == 0.
Proof. apply or_else_nonzero. discriminate. Qed.

Lemma Qle_bool_false x y : Qle_bool x y = false <-> y < x.
Proof.
  split; intros H.
  - apply Qnot_le_lt. intros Hle. apply Qle_bool_iff in Hle. congruence.
  - destruct (Qle_bool x y) eqn:E; [|reflexivity].
    apply Qle_bool_iff in E. apply Qlt_not_le in H. contradiction.
Qed.

Lemma interpolate_Some total s e t :
  real s < real e -> ~ total == 0 ->
  interpolate total s e t = Some (interpolate_value total s e t).
Proof.
  intros Hlt Ht. unfold interpolate.
  rewrite jsdiv_Some by lra. cbn [bind].
  now rewrite jsdiv_Some.
Qed.

Lemma interp_total total t :
  ~ total == 0 ->
  forall rest prev,
    real prev < t -> exists q, interp total prev rest t = Some q.
Proof.
  intros Ht. induction rest as [|e rest IH]; intros prev Hprev; simpl.
  - now exists 100.
  - destruct (Qle_bool t (real e)) eqn:E.
    + apply Qle_bool_iff in E.
      rewrite interpolate_Some by (assumption || lra). eauto.
    + apply Qle_bool_false in E. now apply IH.
Qed.

(** ** The set of time points *)

Lemma Set_has_false s v :
  Set_has s v = false -> Forall (fun a => ~ a == v) s.
Proof.
  unfold Set_has. induction s as [|a s IH]; simpl; intros H; [constructor|].
  apply orb_false_iff in H as [Ha Hs].
  constructor; [|now apply IH].
  intros E. symmetry in E. apply Qeq_bool_iff in E. congruence.
Qed.

Lemma distinct_snoc l v :
  distinct l -> Forall (fun a => ~ a == v) l -> distinct (l ++ [v]).
Proof.
  unfold distinct. induction 1 as [|a l Ha Hl IH]; intros Hv; simpl.
  - constructor; constructor.
  - inversion Hv; subst. constructor; [|now apply IH].
    apply Forall_app; split; [assumption|]. now constructor.
Qed.

Lemma Set_add_distinct s v : distinct s -> distinct (Set_add s v).
Proof.
  intros Hs. unfold Set_add. destruct (Set_has s v) eqn:E; [assumption|].
  apply distinct_snoc; [assumption|now apply Set_has_false].
Qed.

Lemma Set_add_Forall (P : Q -> Prop) s v :
  Forall P s -> P v -> Forall P (Set_add s v).
Proof.
  intros Hs Hv. unfold Set_add. destruct (Set_has s v); [assumption|].
  apply Forall_app; split; [assumption|now constructor].
Qed.

Lemma Set_add_InQ x s v : InQ x s -> InQ x (Set_add s v).
Proof.
  intros Hx. unfold Set_add. destruct (Set_has s v); [assumption|].
  apply Exists_app. now left.
Qed.

Section TimePoints.

Variable P : list Q -> Prop.
Variable ok : AnimatedProperty -> Prop.
Hypothesis P_add :
  forall s p, P s -> ok p ->
    P (Set_add (Set_add s (delay p)) (delay p + duration p)).

(** An invariant of [Set_add] holds of the set the [forEach] builds. *)
Lemma forEach_invariant props :
  Forall ok props ->
  forall s, P s ->
    P (fold_left
         (fun s p => Set_add (Set_add s (delay p)) (delay p + duration p))
         props s).
Proof.
  induction 1 as [|p props Hp Hps IH]; intros s Hs; simpl; [assumption|].
  apply IH. now apply P_add.
Qed.

End TimePoints.

Lemma Forall_True {A : Type} (l : list A) : Forall (fun _ => True) l.
Proof. induction l; constructor; auto. Qed.

Lemma timePoints_distinct tracks : distinct (HandoffSpec.timePoints tracks).
Proof.
  unfold HandoffSpec.timePoints.
  apply forEach_invariant with (ok := fun _ => True).
  - intros s p Hs _. now do 2 apply Set_add_distinct.
  - apply Forall_True.
  - repeat constructor.
Qed.

Lemma timePoints_zero tracks : InQ 0 (HandoffSpec.timePoints tracks).
Proof.
  unfold HandoffSpec.timePoints.
  apply forEach_invariant with (ok := fun _ => True).
  - intros s p Hs _. now do 2 apply Set_add_InQ.
  - apply Forall_True.
  - constructor. reflexivity.
Qed.

Lemma timePoints_nonneg tracks :
  valid_tracks tracks -> Forall (Qle 0) (HandoffSpec.timePoints tracks).
Proof.
  intros Hv. unfold HandoffSpec.timePoints.
  apply forEach_invariant with (ok := valid_property).
  - intros s p Hs [H0 H1]. apply Set_add_Forall; [|lra].
    now apply Set_add_Forall.
  - exact Hv.
  - repeat constructor. lra.
Qed.

(** ** Sorting *)

Lemma insert_Forall (P : Q -> Prop) a l :
  P a -> Forall P l -> Forall P (insert a l).
Proof.
  intros Ha. induction 1 as [|b l Hb Hl IH]; simpl.
  - now constructor.
  - destruct (Qle_bool a b); repeat constructor; assumption.
Qed.

Lemma sort_Forall (P : Q -> Prop) l : Forall P l -> Forall P (sort l).
Proof.
  induction 1; simpl; [constructor|]. now apply insert_Forall.
Qed.

Lemma insert_Exists (P : Q -> Prop) a l :
  P a \/ Exists P l -> Exists P (insert a l).
Proof.
  induction l as [|b l IH]; simpl; intros [H|H].
  - now constructor.
  - inversion H.
  - destruct (Qle_bool a b); [now constructor|].
    apply Exists_cons_tl, IH. now left.
  - destruct (Qle_bool a b); [now apply Exists_cons_tl|].
    inversion H; subst; [now constructor|].
    apply Exists_cons_tl, IH. now right.
Qed.

Lemma sort_Exists (P : Q -> Prop) l : Exists P l -> Exists P (sort l).
Proof.
  induction 1; simpl; apply insert_Exists; auto.
Qed.

Lemma insert_strict a l :
  StronglySorted Qlt l -> Forall (fun b => ~ a == b) l ->
  StronglySorted Qlt (insert a l).
Proof.
  induction 1 as [|b l Hl IH Hb]; intros Ha; simpl.
  - repeat constructor.
  - inversion Ha as [|? ? Hab Hal]; subst.
    destruct (Qle_bool a b) eqn:E.
    + apply Qle_bool_iff in E.
      assert (Hlt : a < b) by (apply Qle_lt_or_eq in E as [|]; tauto).
      constructor; [now constructor|].
      constructor; [assumption|].
      eapply Forall_impl; [|exact Hb]. intros c Hc. simpl in Hc. lra.
    + apply Qle_bool_false in E.
      constructor; [now apply IH|].
      now apply insert_Forall.
Qed.

Lemma sort_strict l : distinct l -> StronglySorted Qlt (sort l).
Proof.
  induction 1 as [|a l Ha Hl IH]; simpl; [constructor|].
  apply insert_strict; [assumption|now apply sort_Forall].
Qed.

Lemma sortedPoints_strict tracks :
  StronglySorted Qlt (HandoffSpec.sortedPoints tracks).
Proof. apply sort_strict, timePoints_distinct. Qed.

Lemma sortedPoints_zero tracks : InQ 0 (HandoffSpec.sortedPoints tracks).
Proof. apply sort_Exists, timePoints_zero. Qed.

Lemma sortedPoints_nonneg tracks :
  valid_tracks tracks -> Forall (Qle 0) (HandoffSpec.sortedPoints tracks).
Proof. intros Hv. now apply sort_Forall, timePoints_nonneg. Qed.

(** With valid intervals the smallest time point is the seed [0]. *)
Lemma sortedPoints_head tracks :
  valid_tracks tracks ->
  exists a rest,
    HandoffSpec.sortedPoints tracks = a :: rest /\ a == 0 /\
    StronglySorted Qlt (a :: rest).
Proof.
  intros Hv.
  pose proof (sortedPoints_strict tracks) as Hs.
  pose proof (sortedPoints_zero tracks) as Hz.
  pose proof (sortedPoints_nonneg tracks Hv) as Hn.
  destruct (HandoffSpec.sortedPoints tracks) as [|a rest]; [inversion Hz|].
  exists a, rest. repeat split; [|assumption].
  inversion Hn as [|? ? Ha _]; subst.
  inversion Hs as [|? ? _ Hlt]; subst.
  inversion Hz as [? ? E|? ? Hin]; subst; [now symmetry|].
  apply Exists_exists in Hin as (b & Hb & E).
  rewrite Forall_forall in Hlt. specialize (Hlt b Hb). lra.
Qed.

(** ** The visual mapping table *)

Lemma visualDuration_pos tracks tStart tEnd :
  tStart < tEnd -> 0 < HandoffSpec.visualDuration tracks tStart tEnd.
Proof.
  intros Hlt. unfold HandoffSpec.visualDuration.
  destruct (HandoffSpec.isActive tracks _); [lra|].
  unfold HandoffSpec.MAX_EMPTY_GAP_VISUAL.
  destruct (Q.min_spec (tEnd - tStart) 60) as [[_ ->]|[_ ->]]; lra.
Qed.

Lemma walk_cons tracks a b r cv :
  walk tracks (a :: b :: r) cv =
  {| real := b; visual := cv + HandoffSpec.visualDuration tracks a b |}
    :: walk tracks (b :: r) (cv + HandoffSpec.visualDuration tracks a b).
Proof. reflexivity. Qed.

Lemma walk_real tracks :
  forall rest a cv, map real (walk tracks (a :: rest) cv) = rest.
Proof.
  induction rest as [|b r IH]; intros a cv; [reflexivity|].
  rewrite walk_cons. cbn [map real]. now rewrite IH.
Qed.

Lemma walk_chain tracks :
  forall rest a cv prev,
    StronglySorted Qlt (a :: rest) ->
    real prev <= a -> visual prev <= cv ->
    chain prev (walk tracks (a :: rest) cv).
Proof.
  induction rest as [|b r IH]; intros a cv prev Hs Hr Hv.
  - constructor.
  - inversion Hs as [|? ? Hs' Hlt]; subst.
    inversion Hlt as [|? ? Hab _]; subst.
    pose proof (visualDuration_pos tracks a b Hab) as Hpos.
    rewrite walk_cons. constructor; cbn [real visual]; [lra|lra|].
    apply IH; cbn [real visual]; [assumption|lra|lra].
Qed.

Lemma chain_adjacent prev rest :
  chain prev rest ->
  forall i a b,
    nth_error (prev :: rest) i = Some a ->
    nth_error (prev :: rest) (S i) = Some b ->
    real a < real b /\ visual a < visual b.
Proof.
  induction 1 as [prev|prev e rest Hr Hv Hc IH]; intros i a b Ha Hb.
  - destruct i; simpl in Hb; [discriminate|]. destruct i; discriminate.
  - destruct i as [|i].
    + simpl in Ha, Hb. injection Ha as <-. injection Hb as <-. now split.
    + apply (IH i); assumption.
Qed.

Lemma chain_final prev rest :
  chain prev rest ->
  visual prev <= final_visual rest (visual prev) /\
  Forall (fun m => real prev < real m /\ visual prev < visual m /\
                   visual m <= final_visual rest (visual prev)) rest.
Proof.
  induction 1 as [prev|prev e rest Hr Hv Hc [IHv IHf]].
  - split; [unfold final_visual; simpl; lra|constructor].
  - rewrite final_visual_cons. split; [lra|].
    constructor; [repeat split; lra|].
    eapply Forall_impl; [|exact IHf]. intros m Hm; simpl in Hm.
    repeat split; lra.
Qed.

Lemma final_visual_last prev rest :
  final_visual rest (visual prev) = visual (last (prev :: rest) origin).
Proof.
  revert prev; induction rest as [|e rest IH]; intros prev; [reflexivity|].
  rewrite final_visual_cons, IH. reflexivity.
Qed.

Lemma or_else_100 v :
  0 <= v -> 0 < or_else v 100 /\ v <= or_else v 100.
Proof.
  intros Hv. unfold or_else. destruct (Qeq_bool v 0) eqn:E.
  - apply Qeq_bool_iff in E. lra.
  - apply Qeq_bool_neq in E. lra.
Qed.

(** The facts about the table that the properties of [getPercent] rest on. *)
Lemma table_valid tracks :
  valid_tracks tracks ->
  let rest := walk tracks (HandoffSpec.sortedPoints tracks) 0 in
  let total := HandoffSpec.totalVisualDuration tracks in
  chain origin rest /\ 0 < total /\
  Forall (fun m => 0 <= visual m /\ visual m <= total) (origin :: rest).
Proof.
  intros Hv rest total.
  destruct (sortedPoints_head tracks Hv) as (a & pts & Hs & Ha & Hsorted).
  assert (Hc : chain origin rest).
  { subst rest. rewrite Hs. apply walk_chain; cbn [real visual origin];
      [assumption|lra|lra]. }
  destruct (chain_final _ _ Hc) as [Hfin Hall].
  change (visual origin) with 0 in Hfin, Hall.
  assert (Hcv : HandoffSpec.currentVisual tracks = final_visual rest 0)
    by apply currentVisual_walk.
  destruct (or_else_100 _ Hfin) as [Hpos Hle].
  unfold total, HandoffSpec.totalVisualDuration. rewrite Hcv.
  repeat split; try assumption.
  constructor; [cbn [visual origin]; lra|].
  eapply Forall_impl; [|exact Hall]. intros m Hm; simpl in Hm. lra.
Qed.

(** ** Interpolation is monotone *)






Section Segment.

Variables (total : Q) (s e : VisualMapping).
Hypothesis total_pos : 0 < total.
Hypothesis visual_le : visual s <= visual e.



End Segment.



(** ** The end of the table *)

Lemma nth_pred_length {A : Type} (l : list A) (d : A) :
  nth (length l - 1) l d = last l d.
Proof.
  induction l as [|a l IH]; [reflexivity|].
  destruct l as [|b l]; [reflexivity|].
  replace (length (a :: b :: l) - 1)%nat
    with (S (length (b :: l) - 1)) by (simpl; lia).
  change (nth (S (length (b :: l) - 1)) (a :: b :: l) d)
    with (nth (length (b :: l) - 1) (b :: l) d).
  rewrite IH. reflexivity.
Qed.


Lemma last_In {A : Type} (l : list A) (d : A) :
  l <> [] -> In (last l d) l.
Proof.
  induction l as [|a l IH]; intros Hne; [congruence|].
  destruct l as [|b l]; [now left|].
  right. apply IH. discriminate.
Qed.


(** ** The properties of the specification *)



(** C2, as the code has it: when no track has a property, [totalDuration] is
    0 and the percent function is 0 at every time up to 0 and 100 at every
    time after 0. *)
Theorem empty_scale (tracks : list AnimationTrack) :
  HandoffSpec.allProps tracks = [] ->
  totalDuration (HandoffSpec.createVisualTimeScale tracks) = 0 /\
  forall t : Q,
    (t <= 0 ->
     getPercent (HandoffSpec.createVisualTimeScale tracks) t = Some 0) /\
    (0 < t ->
     getPercent (HandoffSpec.createVisualTimeScale tracks) t = Some 100).
Proof.
  intros He.
  assert (Hs : HandoffSpec.sortedPoints tracks = [0]).
  { unfold HandoffSpec.sortedPoints, HandoffSpec.timePoints.
    now rewrite He. }
  cbn [getPercent totalDuration HandoffSpec.createVisualTimeScale].
  split.
  - unfold HandoffSpec.maxRealDuration. now rewrite Hs.
  - intros t. rewrite getPercent_interp, Hs. cbn [walk interp].
    split; intros Ht.
    + apply Qle_bool_iff in Ht. now rewrite Ht.
    + apply Qle_bool_false in Ht. now rewrite Ht.
Qed.

Lemma empty_scale_witness :
  totalDuration (HandoffSpec.createVisualTimeScale empty_track) = 0 /\
  forall t : Q,
    (t <= 0 ->
     getPercent (HandoffSpec.createVisualTimeScale empty_track) t = Some 0) /\
    (0 < t ->
     getPercent (HandoffSpec.createVisualTimeScale empty_track) t = Some 100).
Proof. apply (empty_scale empty_track). reflexivity. Defined.

(** C2 as stated fails: with no track at all the percent function maps the
    time 1 to 100, not to 0. *)
Lemma empty_scale_counterexample :
  HandoffSpec.allProps [] = [] /\
  getPercent (HandoffSpec.createVisualTimeScale []) 1 = Some 100 /\
  ~ 100 == 0.
Proof. repeat split. discriminate. Qed.




(** C4: for the two disjoint intervals [0,100] and [5000,5100] the time
    points are 0, 100, 5000 and 5100; the midpoint test finds the segment
    between 100 and 5000 idle and the two others active; the idle segment
    adds [MAX_EMPTY_GAP_VISUAL = 60] to the accumulated visual value, not
    its real duration 4900, and each active segment adds its real duration
    100. *)
Theorem idle_gap_compression :
  HandoffSpec.sortedPoints gap_tracks = [0; 100; 5000; 5100] /\
  HandoffSpec.isActive gap_tracks ((0 + 100) / 2) = true /\
  HandoffSpec.isActive gap_tracks ((100 + 5000) / 2) = false /\
  HandoffSpec.isActive gap_tracks ((5000 + 5100) / 2) = true /\
  HandoffSpec.visualDuration gap_tracks 0 100 = 100 /\
  HandoffSpec.visualDuration gap_tracks 100 5000
  = HandoffSpec.MAX_EMPTY_GAP_VISUAL /\
  HandoffSpec.MAX_EMPTY_GAP_VISUAL = 60 /\
  ~ HandoffSpec.visualDuration gap_tracks 100 5000 == 5000 - 100 /\
  HandoffSpec.visualDuration gap_tracks 5000 5100 = 100 /\
  HandoffSpec.visualMap gap_tracks =
  [ {| real := 0; visual := 0 |}; {| real := 100; visual := 100 |};
    {| real := 5000; visual := 160 |}; {| real := 5100; visual := 260 |} ].
Proof. repeat split; vm_compute; (reflexivity || discriminate). Qed.

(** C5: for one track with the intervals [0,400] and [0,600] the time points
    are 0, 400 and 600, both segments are active, the accumulated visual
    duration is 600, and the percent function gives [400 / 600 * 100] at 400
    and 100 at 600. *)
Theorem overlap_scenario :
  HandoffSpec.sortedPoints overlap_tracks = [0; 400; 600] /\
  HandoffSpec.isActive overlap_tracks ((0 + 400) / 2) = true /\
  HandoffSpec.isActive overlap_tracks ((400 + 600) / 2) = true /\
  HandoffSpec.visualMap overlap_tracks =
  [ {| real := 0; visual := 0 |}; {| real := 400; visual := 400 |};
    {| real := 600; visual := 600 |} ] /\
  HandoffSpec.currentVisual overlap_tracks = 600 /\
  HandoffSpec.totalVisualDuration overlap_tracks = 600 /\
  (exists q : Q,
     getPercent (HandoffSpec.createVisualTimeScale overlap_tracks) 400
     = Some q /\ q == 400 / 600 * 100) /\
  (exists q : Q,
     getPercent (HandoffSpec.createVisualTimeScale overlap_tracks) 600
     = Some q /\ q == 100).
Proof.
  repeat split; try (vm_compute; reflexivity);
    eexists; (split; [vm_compute; reflexivity|reflexivity]).
Qed.

(** C6: the percent function returns a finite number for every list of
    tracks and every time, no division in it has a zero divisor; for the
    single interval of length zero at 500, [percent 500] is 100. *)
Theorem getPercent_total :
  (forall (tracks : list AnimationTrack) (t : Q),
     exists q : Q,
       getPercent (HandoffSpec.createVisualTimeScale tracks) t = Some q) /\
  (exists q : Q,
     getPercent (HandoffSpec.createVisualTimeScale point_tracks) 500 = Some q /\
     q == 100).
Proof.
  split.
  - intros tracks t. cbn [getPercent HandoffSpec.createVisualTimeScale].
    rewrite getPercent_interp.
    destruct (Qle_bool t 0) eqn:E; [now exists 0|].
    apply Qle_bool_false in E.
    apply interp_total; [apply totalVisualDuration_nonzero|exact E].
  - eexists. split; [vm_compute; reflexivity|reflexivity].
Qed.

(** C7: with valid intervals the visual mapping table starts with the entry
    (0, 0), neither component decreases from an entry to the next, and every
    visual value lies between 0 and [totalVisualDuration], which is the
    accumulated value of the last entry, or 100 when that value is zero. *)
Theorem visualMap_invariants (tracks : list AnimationTrack) :
  valid_tracks tracks ->
  let vm := HandoffSpec.visualMap tracks in
  let total := HandoffSpec.totalVisualDuration tracks in
  nth_error vm 0 = Some {| real := 0; visual := 0 |} /\
  (forall (i : nat) (a b : VisualMapping),
     nth_error vm i = Some a -> nth_error vm (S i) = Some b ->
     real a <= real b /\ visual a <= visual b) /\
  Forall (fun m => 0 <= visual m /\ visual m <= total) vm /\
  total = (if Qeq_bool (visual (last vm origin)) 0 then 100
           else visual (last vm origin)).
Proof.
  intros Hv vm total.
  destruct (table_valid tracks Hv) as (Hc & Ht & Hall).
  subst vm total. rewrite visualMap_walk.
  split; [reflexivity|]. split; [|split; [exact Hall|]].
  - intros i a b Ha Hb.
    destruct (chain_adjacent _ _ Hc i a b Ha Hb). split; lra.
  - unfold HandoffSpec.totalVisualDuration.
    rewrite currentVisual_walk, <- final_visual_last.
    reflexivity.
Qed.

Lemma visualMap_invariants_witness :
  let vm := HandoffSpec.visualMap gap_tracks in
  let total := HandoffSpec.totalVisualDuration gap_tracks in
  nth_error vm 0 = Some {| real := 0; visual := 0 |} /\
  (forall (i : nat) (a b : VisualMapping),
     nth_error vm i = Some a -> nth_error vm (S i) = Some b ->
     real a <= real b /\ visual a <= visual b) /\
  Forall (fun m => 0 <= visual m /\ visual m <= total) vm /\
  total = (if Qeq_bool (visual (last vm origin)) 0 then 100
           else visual (last vm origin)).
Proof.
  apply (visualMap_invariants gap_tracks).
  repeat constructor; cbv; discriminate.
Defined.

(** C8: for every list of tracks the percent function is 0 at 0: the table
    starts with the entry at 0, which the lookup finds first. *)
Theorem getPercent_zero (tracks : list AnimationTrack) :
  getPercent (HandoffSpec.createVisualTimeScale tracks) 0 = Some 0.
Proof.
  cbn [getPercent HandoffSpec.createVisualTimeScale].
  now rewrite getPercent_interp.
Qed.

(** C10: for every group, the scale that [handleDownloadHTML] rebuilds has
    the [totalDuration] of [createVisualTimeScale] on the tracks of the group
    and the same percent at every time. *)
Theorem handleDownloadHTML_scale (group : AnimationGroup) :
  App.maxRealDuration group
  = totalDuration (HandoffSpec.createVisualTimeScale (tracks group)) /\
  forall t : Q,
    App.getPercent group t
    = getPercent (HandoffSpec.createVisualTimeScale (tracks group)) t.
Proof. split; [reflexivity|]. intros t. reflexivity. Qed.

(** ** Identical inputs give identical scales *)








Lemma last_compat l l' :
  Forall2 Qeq l l' -> forall d d', d == d' -> last l d == last l' d'.
Proof.
  induction 1 as [|a a' l l' Ha Hl IH]; intros d d' Hd; [assumption|].
  destruct Hl as [|b b' l l' Hb Hl]; [assumption|].
  now apply IH.
Qed.

Lemma or_else_compat v v' d d' :
  v == v' -> d == d' -> or_else v d == or_else v' d'.
Proof.
  intros Hv Hd. unfold or_else.
  rewrite (Qeqb_comp _ _ Hv 0 0 (Qeq_refl 0)).
  now destruct (Qeq_bool v' 0).
Qed.




Lemma final_visual_compat vm vm' :
  Forall2 same_entry vm vm' ->
  forall cv cv', cv == cv' -> final_visual vm cv == final_visual vm' cv'.
Proof.
  induction 1 as [|m n vm vm' [_ Hmn] Hvm IH]; intros cv cv' Hcv.
  - exact Hcv.
  - rewrite !final_visual_cons. now apply IH.
Qed.

Lemma jsdiv_compat a a' b b' :
  a == a' -> b == b' -> same_result (jsdiv a b) (jsdiv a' b').
Proof.
  intros Ha Hb. unfold jsdiv.
  rewrite (Qeqb_comp _ _ Hb 0 0 (Qeq_refl 0)).
  destruct (Qeq_bool b' 0); simpl; [exact I|]. now rewrite Ha, Hb.
Qed.

Lemma interpolate_compat total total' s s' e e' t t' :
  total == total' -> same_entry s s' -> same_entry e e' -> t == t' ->
  same_result (interpolate total s e t) (interpolate total' s' e' t').
Proof.
  intros HT [Hsr Hsv] [Her Hev] Ht. unfold interpolate.
  assert (H1 : same_result (jsdiv (t - real s) (real e - real s))
                 (jsdiv (t' - real s') (real e' - real s')))
    by (apply jsdiv_compat; [now rewrite Ht, Hsr|now rewrite Her, Hsr]).
  destruct (jsdiv (t - real s) _) as [x|], (jsdiv (t' - real s') _) as [x'|];
    simpl in H1; try contradiction; [|exact I].
  cbn [bind].
  assert (H2 : same_result
                 (jsdiv (visual s + x * (visual e - visual s)) total)
                 (jsdiv (visual s' + x' * (visual e' - visual s')) total'))
    by (apply jsdiv_compat; [now rewrite H1, Hsv, Hev|assumption]).
  destruct (jsdiv (visual s + _) total) as [r|],
           (jsdiv (visual s' + _) total') as [r'|];
    simpl in H2; try contradiction; [|exact I].
  simpl. now rewrite H2.
Qed.

Lemma interp_compat total total' t t' :
  total == total' -> t == t' ->
  forall rest rest', Forall2 same_entry rest rest' ->
  forall prev prev', same_entry prev prev' ->
    same_result (interp total prev rest t) (interp total' prev' rest' t').
Proof.
  intros HT Ht. induction 1 as [|e e' r r' He Hr IH]; intros prev prev' Hp.
  - simpl. reflexivity.
  - cbn [interp]. destruct He as [Her Hev].
    rewrite (Qleb_comp _ _ Ht _ _ Her).
    destruct (Qle_bool t' (real e')).
    + apply interpolate_compat; try assumption. now split.
    + apply IH. now split.
Qed.



(** ** Further properties of the scale: range and bars *)








(** ** The percent function is strictly increasing on the timeline *)













(** ** Which numbers are time points *)

Lemma InQ_compat x y l : x == y -> InQ y l -> InQ x l.
Proof.
  intros E H. unfold InQ in *. eapply Exists_impl; [|exact H].
  intros a Ha; simpl in Ha. now rewrite E.
Qed.

Lemma Set_has_true s v : Set_has s v = true -> InQ v s.
Proof.
  unfold Set_has, InQ. intros H. apply existsb_exists in H as (a & Ha & E).
  apply Exists_exists. exists a. split; [assumption|].
  now apply Qeq_bool_iff.
Qed.

Lemma Set_add_InQ_iff x s v : InQ x (Set_add s v) <-> InQ x s \/ x == v.
Proof.
  unfold Set_add. destruct (Set_has s v) eqn:E.
  - split; [now left|]. intros [H|H]; [assumption|].
    apply InQ_compat with v; [assumption|now apply Set_has_true].
  - unfold InQ. rewrite Exists_app. split.
    + intros [H|H]; [now left|]. right.
      inversion H as [? ? Hx|? ? Hx]; subst; [assumption|inversion Hx].
    + intros [H|H]; [now left|]. right. now constructor.
Qed.

Lemma forEach_InQ x props :
  forall s,
    InQ x (fold_left
             (fun s p => Set_add (Set_add s (delay p)) (delay p + duration p))
             props s)
    <-> InQ x s \/ Exists (is_boundary x) props.
Proof.
  induction props as [|p props IH]; intros s; simpl.
  - split; [now left|]. intros [H|H]; [assumption|inversion H].
  - rewrite IH, !Set_add_InQ_iff, Exists_cons. unfold is_boundary. tauto.
Qed.

Lemma insert_Exists_inv (P : Q -> Prop) a l :
  Exists P (insert a l) -> P a \/ Exists P l.
Proof.
  induction l as [|b l IH]; simpl; intros H.
  - inversion H as [? ? Hx|? ? Hx]; subst; [now left|inversion Hx].
  - destruct (Qle_bool a b).
    + inversion H; subst; [now left|now right].
    + inversion H as [? ? Hx|? ? Hx]; subst.
      * right. now constructor.
      * destruct (IH Hx) as [Ha|Hl]; [now left|right; now constructor].
Qed.

Lemma sort_Exists_inv (P : Q -> Prop) l : Exists P (sort l) -> Exists P l.
Proof.
  induction l as [|a l IH]; simpl; intros H; [assumption|].
  apply insert_Exists_inv in H as [Ha|Hl]; [now constructor|].
  apply Exists_cons_tl. now apply IH.
Qed.

Lemma sortedPoints_InQ tracks x :
  InQ x (HandoffSpec.sortedPoints tracks)
  <-> x == 0 \/ Exists (is_boundary x) (HandoffSpec.allProps tracks).
Proof.
  unfold HandoffSpec.sortedPoints, HandoffSpec.timePoints. split.
  - intros H. apply sort_Exists_inv in H. apply forEach_InQ in H.
    destruct H as [H|H]; [left|now right].
    inversion H as [? ? Hx|? ? Hx]; subst; [assumption|inversion Hx].
  - intros H. apply sort_Exists. apply forEach_InQ.
    destruct H as [H|H]; [left; now constructor|now right].
Qed.

Lemma sorted_le_last l :
  StronglySorted Qlt l -> forall d, Forall (fun x => x <= last l d) l.
Proof.
  induction 1 as [|a l Hl IH Ha]; intros d; [constructor|].
  destruct l as [|b l].
  - constructor; [cbn [last]; lra|constructor].
  - change (last (a :: b :: l) d) with (last (b :: l) d).
    constructor; [|apply IH].
    specialize (IH d). inversion IH; subst. inversion Ha; subst. lra.
Qed.

Lemma or_else_zero v : or_else v 0 == v.
Proof.
  unfold or_else. destruct (Qeq_bool v 0) eqn:E; [|reflexivity].
  apply Qeq_bool_iff in E. now symmetry.
Qed.

(** Every time point is at most [maxRealDuration]. *)
Lemma timePoint_le_max tracks x :
  InQ x (HandoffSpec.sortedPoints tracks) ->
  x <= HandoffSpec.maxRealDuration tracks.
Proof.
  intros H. unfold HandoffSpec.maxRealDuration.
  rewrite or_else_zero, nth_pred_length.
  pose proof (sorted_le_last _ (sortedPoints_strict tracks) 0) as Hall.
  apply Exists_exists in H as (a & Ha & E).
  rewrite Forall_forall in Hall. rewrite E. now apply Hall.
Qed.

Lemma property_end_le_max tracks prop :
  In prop (HandoffSpec.allProps tracks) ->
  delay prop + duration prop <= HandoffSpec.maxRealDuration tracks.
Proof.
  intros H. apply timePoint_le_max, sortedPoints_InQ. right.
  apply Exists_exists. exists prop. split; [assumption|].
  right. reflexivity.
Qed.



(** ** The table at its entries, and the compression rule *)

Lemma interp_at total prev rest :
  chain prev rest -> ~ total == 0 ->
  forall m, In m rest ->
    exists q, interp total prev rest (real m) = Some q /\
              q == visual m / total * 100.
Proof.
  intros Hc Ht. induction Hc as [prev|prev e rest Hr Hv Hc IH]; intros m Hm.
  - inversion Hm.
  - cbn [interp]. destruct Hm as [<-|Hm].
    + assert (E : Qle_bool (real e) (real e) = true)
        by (apply Qle_bool_iff; lra).
      rewrite E, interpolate_Some by assumption.
      eexists; split; [reflexivity|].
      unfold interpolate_value. field. split; lra.
    + destruct (chain_final _ _ Hc) as [_ Hall].
      rewrite Forall_forall in Hall. destruct (Hall m Hm) as (Hlt & _).
      apply Qle_bool_false in Hlt. rewrite Hlt. now apply IH.
Qed.

Lemma percent_at_entry tracks :
  valid_tracks tracks ->
  forall m, In m (HandoffSpec.visualMap tracks) ->
  exists q,
    HandoffSpec.getPercent tracks (real m) = Some q /\
    q == visual m / HandoffSpec.totalVisualDuration tracks * 100.
Proof.
  intros Hv m Hm.
  destruct (table_valid tracks Hv) as (Hc & Ht & _).
  rewrite visualMap_walk in Hm. rewrite getPercent_interp.
  destruct Hm as [<-|Hm].
  - exists 0. split; [reflexivity|].
    cbn [visual origin]. unfold Qdiv. lra.
  - destruct (chain_final _ _ Hc) as [_ Hall].
    rewrite Forall_forall in Hall. destruct (Hall m Hm) as (Hlt & _).
    change (real origin) with 0 in Hlt.
    apply Qle_bool_false in Hlt. rewrite Hlt.
    apply interp_at; [assumption| |assumption]. lra.
Qed.


(** X4: with valid intervals, at the time of every entry of the table the
    percent function is the share of the accumulated visual value of the
    entry in [totalVisualDuration]. *)
Theorem getPercent_at_entry (tracks : list AnimationTrack) :
  valid_tracks tracks ->
  forall m : VisualMapping, In m (HandoffSpec.visualMap tracks) ->
  exists q : Q,
    getPercent (HandoffSpec.createVisualTimeScale tracks) (real m) = Some q /\
    q == visual m / HandoffSpec.totalVisualDuration tracks * 100.
Proof. exact (percent_at_entry tracks). Qed.

Lemma getPercent_at_entry_witness :
  exists q : Q,
    getPercent (HandoffSpec.createVisualTimeScale gap_tracks)
      (real {| real := 5000; visual := 160 |}) = Some q /\
    q == visual {| real := 5000; visual := 160 |}
         / HandoffSpec.totalVisualDuration gap_tracks * 100.
Proof.
  apply (getPercent_at_entry gap_tracks).
  - repeat constructor; cbv; discriminate.
  - right. right. left. reflexivity.
Defined.



Lemma visualMap_real_InQ tracks m :
  In m (HandoffSpec.visualMap tracks) ->
  InQ (real m) (HandoffSpec.sortedPoints tracks).
Proof.
  rewrite visualMap_walk. intros [<-|Hm]; [apply sortedPoints_zero|].
  destruct (HandoffSpec.sortedPoints tracks) as [|a pts] eqn:Hs;
    [inversion Hm|].
  apply (in_map real) in Hm. rewrite walk_real in Hm.
  apply Exists_exists. exists (real m). split; [now right|reflexivity].
Qed.










(** ** The scale depends on the set of intervals only *)

Lemma sorted_above a l x :
  StronglySorted Qlt (a :: l) -> InQ x l -> a < x.
Proof.
  intros Hs Hx. inversion Hs as [|? ? _ Hall]; subst.
  apply Exists_exists in Hx as (c & Hc & E).
  rewrite Forall_forall in Hall. rewrite E. now apply Hall.
Qed.

Lemma InQ_cons x a l : InQ x (a :: l) <-> x == a \/ InQ x l.
Proof. unfold InQ. apply Exists_cons. Qed.

Lemma sorted_unique :
  forall l1 l2,
    StronglySorted Qlt l1 -> StronglySorted Qlt l2 ->
    (forall x, InQ x l1 <-> InQ x l2) ->
    Forall2 Qeq l1 l2.
Proof.
  induction l1 as [|a l1 IH]; intros [|b l2] H1 H2 Hsame.
  - constructor.
  - assert (H : InQ b []) by (apply Hsame, InQ_cons; left; reflexivity).
    inversion H.
  - assert (H : InQ a []) by (apply Hsame, InQ_cons; left; reflexivity).
    inversion H.
  - assert (Hab : a == b).
    { assert (Ha : InQ a (b :: l2))
        by (apply Hsame, InQ_cons; left; reflexivity).
      assert (Hb : InQ b (a :: l1))
        by (apply Hsame, InQ_cons; left; reflexivity).
      apply InQ_cons in Ha as [Ha|Ha]; [assumption|].
      apply InQ_cons in Hb as [Hb|Hb]; [now symmetry|].
      pose proof (sorted_above _ _ _ H2 Ha).
      pose proof (sorted_above _ _ _ H1 Hb). lra. }
    constructor; [assumption|].
    apply IH; [now inversion H1|now inversion H2|].
    intros x. split; intros Hx.
    + pose proof (sorted_above _ _ _ H1 Hx) as Hlt.
      assert (Hx' : InQ x (b :: l2)) by (apply Hsame, InQ_cons; now right).
      apply InQ_cons in Hx' as [E|Hx']; [lra|assumption].
    + pose proof (sorted_above _ _ _ H2 Hx) as Hlt.
      assert (Hx' : InQ x (a :: l1)) by (apply Hsame, InQ_cons; now right).
      apply InQ_cons in Hx' as [E|Hx']; [lra|assumption].
Qed.

Section Agreement.

Variables tracks1 tracks2 : list AnimationTrack.

Hypothesis points_agree :
  Forall2 Qeq (HandoffSpec.sortedPoints tracks1)
    (HandoffSpec.sortedPoints tracks2).

Hypothesis active_agree :
  forall mid mid', mid == mid' ->
    HandoffSpec.isActive tracks1 mid = HandoffSpec.isActive tracks2 mid'.

Lemma visualDuration_agree a a' b b' :
  a == a' -> b == b' ->
  HandoffSpec.visualDuration tracks1 a b
  == HandoffSpec.visualDuration tracks2 a' b'.
Proof.
  intros Ha Hb. unfold HandoffSpec.visualDuration.
  assert (Hm : (a + b) / 2 == (a' + b') / 2) by now rewrite Ha, Hb.
  rewrite (active_agree _ _ Hm).
  destruct (HandoffSpec.isActive tracks2 _); now rewrite Ha, Hb.
Qed.

Lemma walk_agree pts pts' :
  Forall2 Qeq pts pts' ->
  forall cv cv', cv == cv' ->
    Forall2 same_entry (walk tracks1 pts cv) (walk tracks2 pts' cv').
Proof.
  induction 1 as [|a a' r r' Ha Hr IH]; intros cv cv' Hcv.
  - constructor.
  - destruct Hr as [|b b' r r' Hb Hr]; [constructor|].
    rewrite !walk_cons.
    pose proof (visualDuration_agree _ _ _ _ Ha Hb) as Hvd.
    constructor.
    + split; cbn [real visual]; [assumption|now rewrite Hcv, Hvd].
    + apply IH. now rewrite Hcv, Hvd.
Qed.

Lemma scale_agree :
  HandoffSpec.maxRealDuration tracks1 == HandoffSpec.maxRealDuration tracks2 /\
  forall t1 t2, t1 == t2 ->
    same_result (HandoffSpec.getPercent tracks1 t1)
                (HandoffSpec.getPercent tracks2 t2).
Proof.
  split.
  - unfold HandoffSpec.maxRealDuration. rewrite !nth_pred_length.
    apply or_else_compat; [|reflexivity].
    apply last_compat; [assumption|reflexivity].
  - intros t1 t2 Ht. rewrite !getPercent_interp.
    rewrite (Qleb_comp _ _ Ht 0 0 (Qeq_refl 0)).
    destruct (Qle_bool t2 0); [simpl; reflexivity|].
    assert (HW : Forall2 same_entry
                   (walk tracks1 (HandoffSpec.sortedPoints tracks1) 0)
                   (walk tracks2 (HandoffSpec.sortedPoints tracks2) 0))
      by (apply walk_agree; [assumption|reflexivity]).
    apply interp_compat; try assumption.
    + unfold HandoffSpec.totalVisualDuration. rewrite !currentVisual_walk.
      apply or_else_compat; [|reflexivity].
      apply final_visual_compat; [assumption|reflexivity].
    + split; reflexivity.
Qed.

End Agreement.

Lemma existsb_same_members {A : Type} (f g : A -> bool) (l1 l2 : list A) :
  (forall a, In a l1 <-> In a l2) -> (forall a, f a = g a) ->
  existsb f l1 = existsb g l2.
Proof.
  intros Hin Hfg. apply eq_true_iff_eq. rewrite !existsb_exists.
  split; intros (a & Ha & Hf); exists a.
  - split; [now apply Hin|now rewrite <- Hfg].
  - split; [now apply Hin|now rewrite Hfg].
Qed.

Lemma same_intervals_scale tracks1 tracks2 :
  (forall p, In p (HandoffSpec.allProps tracks1)
             <-> In p (HandoffSpec.allProps tracks2)) ->
  HandoffSpec.maxRealDuration tracks1 == HandoffSpec.maxRealDuration tracks2 /\
  forall t1 t2, t1 == t2 ->
    same_result (HandoffSpec.getPercent tracks1 t1)
                (HandoffSpec.getPercent tracks2 t2).
Proof.
  intros Hin. apply scale_agree.
  - apply sorted_unique; try apply sortedPoints_strict.
    intros x. rewrite !sortedPoints_InQ, !Exists_exists.
    split; (intros [H|(p & Hp & Hb)]; [now left|right]);
      exists p; (split; [now apply Hin|assumption]).
  - intros mid mid' Hm. unfold HandoffSpec.isActive.
    apply existsb_same_members; [assumption|].
    intros p. now rewrite Hm.
Qed.

(** X12: the scale depends only on which properties the tracks hold: two
    lists of tracks with the same properties, in any order and however they
    are split into tracks, have the same [totalDuration] and percent
    functions that agree at every time. *)
Theorem scale_of_same_intervals (tracks1 tracks2 : list AnimationTrack) :
  (forall p : AnimatedProperty,
     In p (HandoffSpec.allProps tracks1)
     <-> In p (HandoffSpec.allProps tracks2)) ->
  totalDuration (HandoffSpec.createVisualTimeScale tracks1)
  == totalDuration (HandoffSpec.createVisualTimeScale tracks2) /\
  forall t1 t2 : Q, t1 == t2 ->
    same_result (getPercent (HandoffSpec.createVisualTimeScale tracks1) t1)
                (getPercent (HandoffSpec.createVisualTimeScale tracks2) t2).
Proof. exact (same_intervals_scale tracks1 tracks2). Qed.

Lemma scale_of_same_intervals_witness :
  totalDuration (HandoffSpec.createVisualTimeScale gap_tracks)
  == totalDuration (HandoffSpec.createVisualTimeScale gap_tracks_swapped) /\
  forall t1 t2 : Q, t1 == t2 ->
    same_result
      (getPercent (HandoffSpec.createVisualTimeScale gap_tracks) t1)
      (getPercent (HandoffSpec.createVisualTimeScale gap_tracks_swapped) t2).
Proof.
  apply (scale_of_same_intervals gap_tracks gap_tracks_swapped).
  intros p. simpl. tauto.
Defined.

(** ** The editor: reordering by drag and drop *)

Lemma splice_remove_perm {A : Type} (l : list A) (d : nat) (x : A) :
  nth_error l d = Some x -> Permutation l (x :: splice_remove d l).
Proof.
  intros H. apply firstn_skipn_middle in H.
  rewrite <- H at 1. unfold splice_remove.
  symmetry. apply Permutation_middle.
Qed.

Lemma splice_insert_perm {A : Type} (l : list A) (i : nat) (x : A) :
  Permutation (x :: l) (splice_insert i x l).
Proof.
  unfold splice_insert. rewrite <- (firstn_skipn i l) at 1.
  apply Permutation_middle.
Qed.

Lemma splice_insert_nth {A : Type} (l : list A) (i : nat) (x : A) :
  (i <= length l)%nat -> nth_error (splice_insert i x l) i = Some x.
Proof.
  intros Hi. unfold splice_insert.
  assert (Hlen : length (firstn i l) = i) by now apply firstn_length_le.
  rewrite nth_error_app2 by lia. rewrite Hlen, Nat.sub_diag. reflexivity.
Qed.

Lemma move_perm {A : Type} (l : list A) (d i : nat) (x : A) :
  nth_error l d = Some x ->
  Permutation l (splice_insert i x (splice_remove d l)).
Proof.
  intros H. etransitivity; [apply splice_remove_perm; eassumption|].
  apply splice_insert_perm.
Qed.

Lemma move_nth {A : Type} (l : list A) (d i : nat) (x : A) :
  nth_error l d = Some x -> (i < length l)%nat ->
  nth_error (splice_insert i x (splice_remove d l)) i = Some x.
Proof.
  intros H Hi. apply splice_insert_nth.
  pose proof (Permutation_length (splice_remove_perm l d x H)) as Hlen.
  simpl in Hlen. lia.
Qed.

Lemma allProps_perm tracks1 tracks2 :
  Permutation tracks1 tracks2 ->
  forall p, In p (HandoffSpec.allProps tracks1)
            <-> In p (HandoffSpec.allProps tracks2).
Proof.
  intros H p. unfold HandoffSpec.allProps. rewrite !in_flat_map.
  split; intros (t & Ht & Hp); exists t; split; try assumption.
  - eapply Permutation_in; eassumption.
  - eapply Permutation_in; [symmetry|]; eassumption.
Qed.

Lemma allProps_array_set tracks i t t' :
  nth_error tracks i = Some t ->
  Permutation (properties t) (properties t') ->
  forall p, In p (HandoffSpec.allProps tracks)
            <-> In p (HandoffSpec.allProps (array_set i t' tracks)).
Proof.
  intros Hi Hperm p. apply firstn_skipn_middle in Hi.
  unfold array_set, HandoffSpec.allProps. rewrite <- Hi at 1.
  rewrite !flat_map_app. cbn [flat_map]. rewrite !in_app_iff.
  assert (Hp : In p (properties t) <-> In p (properties t')).
  { split; intros H; eapply Permutation_in; try eassumption.
    now symmetry. }
  tauto.
Qed.

(** X19: when [handleTrackDragOver] changes the group, the new list of
    tracks is a rearrangement of the old one, the dragged track stands at the
    index it was dragged over and that index becomes the dragged one; with a
    dragged index inside the list the handler never fails. *)
Theorem handleTrackDragOver_moves
  (group : AnimationGroup) (d index : nat) :
  (d < length (tracks group))%nat -> (index < length (tracks group))%nat ->
  d <> index ->
  exists (draggedItem : AnimationTrack) (newGroup : AnimationGroup),
    nth_error (tracks group) d = Some draggedItem /\
    PropertyControls.handleTrackDragOver group (Some d) index
    = Some {| PropertyControls.changed := Some newGroup;
              PropertyControls.dragged := Some index |} /\
    Permutation (tracks group) (tracks newGroup) /\
    nth_error (tracks newGroup) index = Some draggedItem /\
    group_id newGroup = group_id group /\
    group_name newGroup = group_name group.
Proof.
  intros Hd Hi Hne.
  destruct (nth_error (tracks group) d) as [x|] eqn:Hx;
    [|apply nth_error_Some in Hd; contradiction].
  exists x. eexists. split; [reflexivity|].
  unfold PropertyControls.handleTrackDragOver.
  apply Nat.eqb_neq in Hne. rewrite Hne, Hx. cbn [bind].
  split; [reflexivity|]. cbn [tracks PropertyControls.withTracks].
  repeat split.
  - now apply move_perm.
  - now apply move_nth.
Qed.

Lemma handleTrackDragOver_moves_witness :
  exists (draggedItem : AnimationTrack) (newGroup : AnimationGroup),
    nth_error (tracks gap_group) 0 = Some draggedItem /\
    PropertyControls.handleTrackDragOver gap_group (Some 0%nat) 1
    = Some {| PropertyControls.changed := Some newGroup;
              PropertyControls.dragged := Some 1%nat |} /\
    Permutation (tracks gap_group) (tracks newGroup) /\
    nth_error (tracks newGroup) 1 = Some draggedItem /\
    group_id newGroup = group_id gap_group /\
    group_name newGroup = group_name gap_group.
Proof.
  apply (handleTrackDragOver_moves gap_group 0 1); simpl; lia.
Defined.

(** X20: when [handlePropDragOver] changes the group, the properties of the
    addressed track are rearranged, the dragged property stands at the index
    it was dragged over, and every other track is as it was; with indices
    inside the arrays the handler never fails. *)
Theorem handlePropDragOver_moves
  (group : AnimationGroup) (trackIndex d propIndex : nat)
  (track : AnimationTrack) :
  nth_error (tracks group) trackIndex = Some track ->
  (d < length (properties track))%nat ->
  (propIndex < length (properties track))%nat ->
  d <> propIndex ->
  exists (draggedItem : AnimatedProperty) (newTrack : AnimationTrack)
         (newGroup : AnimationGroup),
    nth_error (properties track) d = Some draggedItem /\
    PropertyControls.handlePropDragOver group (Some (trackIndex, d))
      trackIndex propIndex
    = Some {| PropertyControls.changed := Some newGroup;
              PropertyControls.dragged := Some (trackIndex, propIndex) |} /\
    tracks newGroup = array_set trackIndex newTrack (tracks group) /\
    nth_error (tracks newGroup) trackIndex = Some newTrack /\
    (forall j, j <> trackIndex ->
       nth_error (tracks newGroup) j = nth_error (tracks group) j) /\
    track_id newTrack = track_id track /\
    track_name newTrack = track_name track /\
    Permutation (properties track) (properties newTrack) /\
    nth_error (properties newTrack) propIndex = Some draggedItem.
Proof.
  intros Ht Hd Hi Hne.
  destruct (nth_error (properties track) d) as [x|] eqn:Hx;
    [|apply nth_error_Some in Hd; contradiction].
  exists x. do 2 eexists. split; [reflexivity|].
  unfold PropertyControls.handlePropDragOver.
  apply Nat.eqb_neq in Hne. rewrite Nat.eqb_refl, Hne, Ht. cbn [negb orb bind].
  rewrite Hx. cbn [bind].
  split; [reflexivity|]. cbn [tracks PropertyControls.withTracks].
  split; [reflexivity|].
  assert (Hlt : (trackIndex < length (tracks group))%nat)
    by (apply nth_error_Some; congruence).
  assert (Hlen : length (firstn trackIndex (tracks group)) = trackIndex)
    by (apply firstn_length_le; lia).
  split; [|split].
  - unfold array_set. rewrite nth_error_app2 by lia.
    now rewrite Hlen, Nat.sub_diag.
  - intros j Hj. rewrite <- (firstn_skipn_middle _ _ Ht) at 2.
    unfold array_set. destruct (Nat.lt_ge_cases j trackIndex) as [Hlo|Hhi].
    + now rewrite !nth_error_app1 by lia.
    + rewrite !nth_error_app2 by lia. rewrite Hlen.
      destruct (j - trackIndex)%nat as [|k] eqn:Hk; [lia|reflexivity].
  - cbn [track_id track_name properties]. repeat split.
    + now apply move_perm.
    + now apply move_nth.
Qed.

Lemma handlePropDragOver_moves_witness :
  exists (draggedItem : AnimatedProperty) (newTrack : AnimationTrack)
         (newGroup : AnimationGroup),
    nth_error (properties (mkTrack "track-1"
                 [mkProperty "p1" 0 400; mkProperty "p2" 0 600])) 1
    = Some draggedItem /\
    PropertyControls.handlePropDragOver overlap_group (Some (0, 1)%nat) 0 0
    = Some {| PropertyControls.changed := Some newGroup;
              PropertyControls.dragged := Some (0, 0)%nat |} /\
    tracks newGroup = array_set 0 newTrack (tracks overlap_group) /\
    nth_error (tracks newGroup) 0 = Some newTrack /\
    (forall j, j <> 0%nat ->
       nth_error (tracks newGroup) j = nth_error (tracks overlap_group) j) /\
    track_id newTrack
    = track_id (mkTrack "track-1"
                  [mkProperty "p1" 0 400; mkProperty "p2" 0 600]) /\
    track_name newTrack
    = track_name (mkTrack "track-1"
                    [mkProperty "p1" 0 400; mkProperty "p2" 0 600]) /\
    Permutation
      (properties (mkTrack "track-1"
                     [mkProperty "p1" 0 400; mkProperty "p2" 0 600]))
      (properties newTrack) /\
    nth_error (properties newTrack) 0 = Some draggedItem.
Proof.
  apply (handlePropDragOver_moves overlap_group 0 1 0
           (mkTrack "track-1" [mkProperty "p1" 0 400; mkProperty "p2" 0 600]));
    [reflexivity|simpl; lia|simpl; lia|lia].
Defined.

Lemma drag_same_props (group newGroup : AnimationGroup) :
  (exists draggedTrackIndex index r,
     PropertyControls.handleTrackDragOver group draggedTrackIndex index
     = Some r /\ PropertyControls.changed r = Some newGroup) \/
  (exists draggedProp trackIndex propIndex r,
     PropertyControls.handlePropDragOver group draggedProp trackIndex propIndex
     = Some r /\ PropertyControls.changed r = Some newGroup) ->
  forall p, In p (HandoffSpec.allProps (tracks group))
            <-> In p (HandoffSpec.allProps (tracks newGroup)).
Proof.
  intros H.
  destruct H as [(dt & index & r & Hr & Hc)|(dp & ti & pi & r & Hr & Hc)].
  - unfold PropertyControls.handleTrackDragOver in Hr.
    destruct dt as [d|];
      [|injection Hr as <-; discriminate].
    destruct (Nat.eqb d index); [injection Hr as <-; discriminate|].
    destruct (nth_error (tracks group) d) as [x|] eqn:Hx; [|discriminate].
    cbn [bind] in Hr. injection Hr as <-. cbn in Hc. injection Hc as <-.
    apply allProps_perm. cbn [tracks PropertyControls.withTracks].
    now apply move_perm.
  - unfold PropertyControls.handlePropDragOver in Hr.
    destruct dp as [[dti dpi]|];
      [|injection Hr as <-; discriminate].
    destruct (negb (Nat.eqb dti ti) || Nat.eqb dpi pi);
      [injection Hr as <-; discriminate|].
    destruct (nth_error (tracks group) ti) as [t|] eqn:Ht; [|discriminate].
    cbn [bind] in Hr.
    destruct (nth_error (properties t) dpi) as [x|] eqn:Hx; [|discriminate].
    cbn [bind] in Hr. injection Hr as <-. cbn in Hc. injection Hc as <-.
    cbn [tracks PropertyControls.withTracks].
    apply allProps_array_set with (t := t); [assumption|].
    cbn [properties]. now apply move_perm.
Qed.

(** X21: no drag-over handler changes the timeline: whatever group either
    handler passes to [onChange], its scale has the [totalDuration] of the
    scale of the group before and the same percent at every time. *)
Theorem drag_keeps_scale (group newGroup : AnimationGroup) :
  (exists draggedTrackIndex index r,
     PropertyControls.handleTrackDragOver group draggedTrackIndex index
     = Some r /\ PropertyControls.changed r = Some newGroup) \/
  (exists draggedProp trackIndex propIndex r,
     PropertyControls.handlePropDragOver group draggedProp trackIndex propIndex
     = Some r /\ PropertyControls.changed r = Some newGroup) ->
  totalDuration (HandoffSpec.createVisualTimeScale (tracks group))
  == totalDuration (HandoffSpec.createVisualTimeScale (tracks newGroup)) /\
  forall t1 t2 : Q, t1 == t2 ->
    same_result
      (getPercent (HandoffSpec.createVisualTimeScale (tracks group)) t1)
      (getPercent (HandoffSpec.createVisualTimeScale (tracks newGroup)) t2).
Proof.
  intros H. apply same_intervals_scale. now apply drag_same_props.
Qed.

Lemma drag_keeps_scale_witness :
  totalDuration (HandoffSpec.createVisualTimeScale (tracks gap_group))
  == totalDuration
       (HandoffSpec.createVisualTimeScale
          (tracks (PropertyControls.withTracks gap_group
                     [mkTrack "track-2" [mkProperty "p2" 5000 100];
                      mkTrack "track-1" [mkProperty "p1" 0 100]]))) /\
  forall t1 t2 : Q, t1 == t2 ->
    same_result
      (getPercent (HandoffSpec.createVisualTimeScale (tracks gap_group)) t1)
      (getPercent
         (HandoffSpec.createVisualTimeScale
            (tracks (PropertyControls.withTracks gap_group
                       [mkTrack "track-2" [mkProperty "p2" 5000 100];
                        mkTrack "track-1" [mkProperty "p1" 0 100]]))) t2).
Proof.
  apply (drag_keeps_scale gap_group).
  left. exists (Some 0%nat), 1%nat. eexists. split; reflexivity.
Defined.

(** ** The editor: times and validity *)

Lemma valid_tracks_map (f : AnimationTrack -> AnimationTrack) tracks :
  (forall t, Forall valid_property (properties t) ->
             Forall valid_property (properties (f t))) ->
  valid_tracks tracks -> valid_tracks (map f tracks).
Proof.
  intros Hf. unfold valid_tracks, HandoffSpec.allProps.
  rewrite !Forall_flat_map, Forall_map.
  apply Forall_impl. exact Hf.
Qed.

Lemma updateProperty_valid group trackId propId updates :
  (forall p, valid_property p -> valid_property (assign p updates)) ->
  valid_tracks (tracks group) ->
  valid_tracks
    (tracks (PropertyControls.updateProperty group trackId propId updates)).
Proof.
  intros Hu. cbn [tracks PropertyControls.updateProperty
                    PropertyControls.withTracks].
  apply valid_tracks_map. intros t Ht.
  destruct (negb (String.eqb (track_id t) trackId)); [assumption|].
  cbn [properties]. rewrite Forall_map.
  eapply Forall_impl; [|exact Ht]. intros p Hp.
  destruct (String.eqb (id p) propId); auto.
Qed.

(** X16: [handleTimeChange] keeps the intervals valid: if no interval of the
    group starts before 0 or ends before its start, and the delay of the
    edited property is not negative, this also holds of the group it passes
    on, whatever number was typed. *)
Theorem handleTimeChange_keeps_valid
  (group : AnimationGroup) (trackId propId : string)
  (field : PropertyControls.TimeField) (value : Q)
  (currentProp : AnimatedProperty) :
  valid_tracks (tracks group) -> 0 <= delay currentProp ->
  valid_tracks
    (tracks (PropertyControls.handleTimeChange group trackId propId field
               value currentProp)).
Proof.
  intros Hv H0. unfold PropertyControls.handleTimeChange.
  cbn [start end_ getPropertyTimes].
  pose proof (Q.le_max_l 0 value) as Hmax0.
  pose proof (Q.le_max_l (delay currentProp + 10) value) as Hmax1.
  destruct field.
  - destruct (Qle_bool _ _) eqn:E; apply updateProperty_valid;
      try assumption; intros p _; unfold valid_property, assign;
      cbn [delay duration or_keep set_delay set_duration].
    + lra.
    + apply Qle_bool_false in E. lra.
  - apply updateProperty_valid; try assumption.
    intros p _; unfold valid_property, assign;
      cbn [delay duration or_keep set_delay set_duration]. lra.
Qed.

Lemma handleTimeChange_keeps_valid_witness :
  valid_tracks
    (tracks (PropertyControls.handleTimeChange overlap_group "track-1" "p1"
               PropertyControls.F_start (-5) (mkProperty "p1" 0 400))).
Proof.
  apply (handleTimeChange_keeps_valid overlap_group).
  - repeat constructor; cbv; discriminate.
  - cbv; discriminate.
Defined.



Lemma valid_tracks_same_props tracks1 tracks2 :
  (forall p, In p (HandoffSpec.allProps tracks1)
             <-> In p (HandoffSpec.allProps tracks2)) ->
  valid_tracks tracks1 -> valid_tracks tracks2.
Proof.
  intros Hin. unfold valid_tracks. rewrite !Forall_forall.
  intros H p Hp. apply H, Hin, Hp.
Qed.

(** X18: the other handlers of the editor keep the intervals valid too:
    adding, removing and renaming a track, adding and removing a property,
    an update that sets neither delay nor duration, and both drag-over
    handlers pass on a group without an interval that starts before 0 or
    ends before its start, if the group had none. *)
Theorem handlers_keep_valid (group : AnimationGroup) :
  valid_tracks (tracks group) ->
  (forall newId,
     valid_tracks (tracks (PropertyControls.addTrack group newId))) /\
  (forall trackId,
     valid_tracks (tracks (PropertyControls.removeTrack group trackId))) /\
  (forall trackId name,
     valid_tracks
       (tracks (PropertyControls.updateTrackName group trackId name))) /\
  (forall trackId ty newId,
     valid_tracks
       (tracks (PropertyControls.addProperty group trackId ty newId))) /\
  (forall trackId propId,
     valid_tracks
       (tracks (PropertyControls.removeProperty group trackId propId))) /\
  (forall trackId propId updates,
     set_delay updates = None -> set_duration updates = None ->
     valid_tracks
       (tracks (PropertyControls.updateProperty group trackId propId
                  updates))) /\
  (forall draggedTrackIndex index r newGroup,
     PropertyControls.handleTrackDragOver group draggedTrackIndex index
     = Some r ->
     PropertyControls.changed r = Some newGroup ->
     valid_tracks (tracks newGroup)) /\
  (forall draggedProp trackIndex propIndex r newGroup,
     PropertyControls.handlePropDragOver group draggedProp trackIndex propIndex
     = Some r ->
     PropertyControls.changed r = Some newGroup ->
     valid_tracks (tracks newGroup)).
Proof.
  intros Hv. repeat split.
  - intros newId. cbn [tracks PropertyControls.addTrack
                         PropertyControls.withTracks].
    unfold valid_tracks, HandoffSpec.allProps in *.
    rewrite flat_map_app. apply Forall_app. split; [assumption|constructor].
  - intros trackId. cbn [tracks PropertyControls.removeTrack
                           PropertyControls.withTracks].
    unfold valid_tracks, HandoffSpec.allProps in *.
    rewrite Forall_flat_map in *. rewrite Forall_forall in *.
    intros t Ht. apply filter_In in Ht. now apply Hv.
  - intros trackId name. cbn [tracks PropertyControls.updateTrackName
                                PropertyControls.withTracks].
    apply valid_tracks_map; [|assumption].
    intros t Ht. now destruct (String.eqb _ _).
  - intros trackId ty newId. cbn [tracks PropertyControls.addProperty
                                    PropertyControls.withTracks].
    apply valid_tracks_map; [|assumption].
    intros t Ht. destruct (negb _); [assumption|]. cbn [properties].
    apply Forall_app. split; [assumption|].
    repeat constructor; cbn [delay duration]; lra.
  - intros trackId propId. cbn [tracks PropertyControls.removeProperty
                                  PropertyControls.withTracks].
    apply valid_tracks_map; [|assumption].
    intros t Ht. destruct (negb _); [assumption|]. cbn [properties].
    rewrite Forall_forall in *. intros p Hp.
    apply filter_In in Hp. now apply Ht.
  - intros trackId propId updates Hd Hdur.
    apply updateProperty_valid; [|assumption].
    intros p Hp. unfold valid_property, assign in *.
    cbn [delay duration]. rewrite Hd, Hdur. exact Hp.
  - intros dt index r newGroup Hr Hc.
    eapply valid_tracks_same_props; [|exact Hv].
    apply drag_same_props. left. eauto.
  - intros dp ti pi r newGroup Hr Hc.
    eapply valid_tracks_same_props; [|exact Hv].
    apply drag_same_props. right. eauto 6.
Qed.

Lemma handlers_keep_valid_witness :
  valid_tracks
    (tracks (PropertyControls.addProperty overlap_group "track-1" PT_video
               "prop-1")).
Proof.
  apply (handlers_keep_valid overlap_group).
  repeat constructor; cbv; discriminate.
Defined.

(** X11: for every list of tracks [totalDuration] is the largest time point:
    it is not negative, no property starts or ends after it, and it is 0 or
    the start or the end of a property. *)
Theorem totalDuration_is_max (tracks : list AnimationTrack) :
  0 <= totalDuration (HandoffSpec.createVisualTimeScale tracks) /\
  (forall prop, In prop (HandoffSpec.allProps tracks) ->
     delay prop <= totalDuration (HandoffSpec.createVisualTimeScale tracks) /\
     delay prop + duration prop
     <= totalDuration (HandoffSpec.createVisualTimeScale tracks)) /\
  (totalDuration (HandoffSpec.createVisualTimeScale tracks) == 0 \/
   exists prop, In prop (HandoffSpec.allProps tracks) /\
     is_boundary (totalDuration (HandoffSpec.createVisualTimeScale tracks))
       prop).
Proof.
  cbn [totalDuration HandoffSpec.createVisualTimeScale].
  split; [|split].
  - apply timePoint_le_max, sortedPoints_zero.
  - intros prop Hp. split; [|now apply property_end_le_max].
    apply timePoint_le_max, sortedPoints_InQ. right.
    apply Exists_exists. exists prop. split; [assumption|].
    left. reflexivity.
  - assert (Hin : InQ (HandoffSpec.maxRealDuration tracks)
                    (HandoffSpec.sortedPoints tracks)).
    { unfold HandoffSpec.maxRealDuration.
      apply InQ_compat with (last (HandoffSpec.sortedPoints tracks) 0).
      - rewrite or_else_zero, nth_pred_length. reflexivity.
      - pose proof (sortedPoints_zero tracks) as Hz.
        apply Exists_exists.
        exists (last (HandoffSpec.sortedPoints tracks) 0).
        split; [|reflexivity]. apply last_In.
        intros E. rewrite E in Hz. inversion Hz. }
    apply sortedPoints_InQ in Hin as [H|H]; [now left|right].
    apply Exists_exists in H. exact H.
Qed.

(** ** The project state *)

Lemma filter_other_ids_all (i : string) (l : list AnimationGroup) :
  ~ In i (map group_id l) ->
  filter (fun g => negb (String.eqb (group_id g) i)) l = l.
Proof.
  induction l as [|g l IH]; intros Hni; [reflexivity|].
  cbn [filter map] in *.
  destruct (String.eqb (group_id g) i) eqn:E.
  - apply String.eqb_eq in E. exfalso. apply Hni. now left.
  - cbn [negb]. f_equal. apply IH. intros H. apply Hni. now right.
Qed.

Lemma filter_other_ids_length (i : string) (l : list AnimationGroup) :
  NoDup (map group_id l) ->
  (length l
   <= S (length (filter (fun g => negb (String.eqb (group_id g) i)) l)))%nat.
Proof.
  induction l as [|g l IH]; intros Hnd; [simpl; lia|].
  cbn [map] in Hnd. inversion Hnd as [|? ? Hni Hnd']; subst.
  cbn [filter]. destruct (String.eqb (group_id g) i) eqn:E; cbn [negb].
  - apply String.eqb_eq in E. subst i.
    rewrite filter_other_ids_all by assumption. simpl. lia.
  - specialize (IH Hnd'). simpl. lia.
Qed.

Lemma filter_ids_NoDup (p : AnimationGroup -> bool) (l : list AnimationGroup) :
  NoDup (map group_id l) -> NoDup (map group_id (filter p l)).
Proof.
  induction l as [|g l IH]; intros Hnd; [constructor|].
  cbn [map] in Hnd. inversion Hnd as [|? ? Hni Hnd']; subst.
  cbn [filter]. destruct (p g); [|now apply IH].
  cbn [map]. constructor; [|now apply IH].
  intros H. apply Hni. apply in_map_iff in H as (g' & Hg' & Hin).
  apply filter_In in Hin as [Hin _]. apply in_map_iff. eauto.
Qed.

(** X22: on a project with distinct group ids [deleteGroup] never reads the
    id of a group that is not there.  With one group nothing changes; with
    more, the groups with the given id are removed, the others are kept, and
    the first group left becomes the active one.  The project it returns
    still has a group, distinct ids and an active id that names a group. *)
Theorem deleteGroup_safe (i : string) (project : ProjectState) :
  well_formed project ->
  exists project' : ProjectState,
    App.deleteGroup i project = Some project' /\
    well_formed project' /\
    ((length (groups project) <= 1)%nat -> project' = project) /\
    ((2 <= length (groups project))%nat ->
     ~ In i (map group_id (groups project')) /\
     (forall g, In g (groups project) -> group_id g <> i ->
                In g (groups project')) /\
     nth_error (groups project') 0
     = App.activeGroup project').
Proof.
  intros (Hne & Hnd & Hact). unfold App.deleteGroup.
  destruct (Nat.leb (length (groups project)) 1) eqn:E.
  - apply Nat.leb_le in E. exists project.
    repeat split; try assumption; lia.
  - apply Nat.leb_gt in E.
    pose proof (filter_other_ids_length i _ Hnd) as Hlen.
    set (newGroups :=
           filter (fun g => negb (String.eqb (group_id g) i))
             (groups project)) in *.
    destruct newGroups as [|g0 rest] eqn:Hnew; [simpl in Hlen; lia|].
    cbn [nth_error]. eexists. split; [reflexivity|].
    assert (Hnd' : NoDup (map group_id (g0 :: rest))).
    { rewrite <- Hnew. now apply filter_ids_NoDup. }
    split; [|split; [intros; lia|intros _; split; [|split]]].
    + repeat split; cbn [groups activeGroupId]; try assumption;
        [discriminate|now left].
    + cbn [groups]. rewrite <- Hnew. intros H.
      apply in_map_iff in H as (g & Hg & Hin).
      apply filter_In in Hin as [_ Hf].
      apply negb_true_iff, String.eqb_neq in Hf. contradiction.
    + cbn [groups]. rewrite <- Hnew. intros g Hg Hgi.
      apply filter_In. split; [assumption|].
      now apply negb_true_iff, String.eqb_neq.
    + unfold App.activeGroup. cbn [groups activeGroupId find nth_error].
      now rewrite String.eqb_refl.
Qed.

Lemma deleteGroup_safe_witness :
  exists project' : ProjectState,
    App.deleteGroup "group-1" two_groups = Some project' /\
    well_formed project' /\
    ((length (groups two_groups) <= 1)%nat -> project' = two_groups) /\
    ((2 <= length (groups two_groups))%nat ->
     ~ In "group-1"%string (map group_id (groups project')) /\
     (forall g, In g (groups two_groups) -> group_id g <> "group-1"%string ->
                In g (groups project')) /\
     nth_error (groups project') 0
     = App.activeGroup project').
Proof.
  apply (deleteGroup_safe "group-1" two_groups).
  split; [discriminate|]. split.
  - repeat constructor; simpl; intuition discriminate.
  - left. reflexivity.
Defined.

Lemma find_replaced (newGroup : AnimationGroup) (l : list AnimationGroup) :
  In (group_id newGroup) (map group_id l) ->
  find (fun g => String.eqb (group_id g) (group_id newGroup))
    (map (fun g =>
            if String.eqb (group_id g) (group_id newGroup)
            then newGroup else g) l)
  = Some newGroup.
Proof.
  induction l as [|g l IH]; intros Hin; [inversion Hin|].
  cbn [map find].
  destruct (String.eqb (group_id g) (group_id newGroup)) eqn:E.
  - now rewrite String.eqb_refl.
  - rewrite E. apply IH. destruct Hin as [H|H]; [|assumption].
    apply String.eqb_neq in E. cbn in H. congruence.
Qed.

Lemma replaced_ids (newGroup : AnimationGroup) (l : list AnimationGroup) :
  map group_id
    (map (fun g =>
            if String.eqb (group_id g) (group_id newGroup)
            then newGroup else g) l)
  = map group_id l.
Proof.
  induction l as [|g l IH]; [reflexivity|]. cbn [map]. rewrite IH.
  destruct (String.eqb (group_id g) (group_id newGroup)) eqn:E;
    [|reflexivity].
  apply String.eqb_eq in E. now rewrite E.
Qed.

(** X23: [updateActiveGroup] followed by [activeGroup] reads back the group
    that was written, when that group carries the active id and the active
    id names a group of the project; the ids of the groups, their order and
    the active id do not change. *)
Theorem updateActiveGroup_activeGroup
  (newGroup : AnimationGroup) (project : ProjectState) :
  In (activeGroupId project) (map group_id (groups project)) ->
  group_id newGroup = activeGroupId project ->
  App.activeGroup (App.updateActiveGroup newGroup project) = Some newGroup /\
  map group_id (groups (App.updateActiveGroup newGroup project))
  = map group_id (groups project) /\
  activeGroupId (App.updateActiveGroup newGroup project)
  = activeGroupId project.
Proof.
  intros Hin Hid. split; [|split; [apply replaced_ids|reflexivity]].
  unfold App.activeGroup, App.updateActiveGroup.
  cbn [groups activeGroupId]. rewrite <- Hid in *.
  now rewrite find_replaced.
Qed.

Lemma updateActiveGroup_activeGroup_witness :
  App.activeGroup
    (App.updateActiveGroup
       (PropertyControls.addTrack overlap_group "track-9") two_groups)
  = Some (PropertyControls.addTrack overlap_group "track-9") /\
  map group_id
    (groups (App.updateActiveGroup
               (PropertyControls.addTrack overlap_group "track-9") two_groups))
  = map group_id (groups two_groups) /\
  activeGroupId
    (App.updateActiveGroup
       (PropertyControls.addTrack overlap_group "track-9") two_groups)
  = activeGroupId two_groups.
Proof.
  apply (updateActiveGroup_activeGroup
           (PropertyControls.addTrack overlap_group "track-9") two_groups).
  - left. reflexivity.
  - reflexivity.
Defined.

Lemma find_appended (f : AnimationGroup -> bool) (n : AnimationGroup)
  (l : list AnimationGroup) :
  (forall g, In g l -> f g = false) -> f n = true ->
  find f (l ++ [n]) = Some n.
Proof.
  induction l as [|g l IH]; intros Hl Hn; cbn [app find].
  - now rewrite Hn.
  - rewrite (Hl g) by now left. apply IH; [|assumption].
    intros g' Hg'. apply Hl. now right.
Qed.

(** X24: [addGroup] with an id that no group has keeps the project well
    formed and makes the new, empty group the active one. *)
Theorem addGroup_activeGroup
  (newId newName : string) (project : ProjectState) :
  NoDup (map group_id (groups project)) ->
  ~ In newId (map group_id (groups project)) ->
  well_formed (App.addGroup newId newName project) /\
  App.activeGroup (App.addGroup newId newName project)
  = Some {| group_id := newId; group_name := newName; tracks := [] |}.
Proof.
  intros Hnd Hfresh. split.
  - unfold well_formed, App.addGroup. cbn [groups activeGroupId].
    rewrite map_app. cbn [map group_id]. repeat split.
    + intros E. apply app_eq_nil in E as [_ E]. discriminate.
    + apply NoDup_app; [assumption|repeat constructor; intros []|].
      intros a Ha [<-|[]]. contradiction.
    + apply in_app_iff. right. now left.
  - unfold App.activeGroup, App.addGroup. cbn [groups activeGroupId].
    rewrite find_appended; [reflexivity| |cbn; apply String.eqb_refl].
    intros g Hg. apply String.eqb_neq. intros E. apply Hfresh.
    apply in_map_iff. eauto.
Qed.

Lemma addGroup_activeGroup_witness :
  well_formed (App.addGroup "group-3" "New Group" two_groups) /\
  App.activeGroup (App.addGroup "group-3" "New Group" two_groups)
  = Some {| group_id := "group-3"; group_name := "New Group"; tracks := [] |}.
Proof.
  apply (addGroup_activeGroup "group-3" "New Group" two_groups).
  - repeat constructor; simpl; intuition discriminate.
  - simpl. intuition discriminate.
Defined.

(** ** The resizable layout *)

Lemma clamp_bounds lo hi v :
  lo <= hi -> lo <= Qmax lo (Qmin hi v) /\ Qmax lo (Qmin hi v) <= hi.
Proof.
  intros H. split; [apply Q.le_max_l|].
  apply Q.max_lub; [assumption|apply Q.le_min_l].
Qed.

Lemma layout_step_in_bounds st ev :
  layout_in_bounds st -> layout_in_bounds (layout_step st ev).
Proof.
  intros (H1 & H2 & H3 & H4). destruct ev as [panel|clientX|].
  - repeat split; assumption.
  - unfold layout_step, App.resize.
    destruct (App.isResizing st) as [[|]|].
    + destruct (clamp_bounds 200 400 clientX) as [Ha Hb]; [lra|].
      repeat split; assumption.
    + destruct (clamp_bounds 350 800 (clientX - App.sidebarWidth st))
        as [Ha Hb]; [lra|].
      repeat split; assumption.
    + repeat split; assumption.
  - repeat split; assumption.
Qed.

(** X25: whatever the mouse does, the widths of the two panels stay in their
    ranges: after every sequence of mouse-down, mouse-move and mouse-up
    events from the initial layout the sidebar is between 200 and 400 wide
    and the editor between 350 and 800. *)
Theorem layout_stays_in_bounds (events : list LayoutEvent) :
  layout_in_bounds (fold_left layout_step events App.initialLayout).
Proof.
  assert (H0 : layout_in_bounds App.initialLayout)
    by (repeat split; cbv; discriminate).
  revert H0. generalize App.initialLayout as st.
  induction events as [|ev events IH]; intros st Hst; [assumption|].
  cbn [fold_left]. apply IH. now apply layout_step_in_bounds.
Qed.

(** ** The handles of the bezier editor *)



(** ** More on the time points and the table *)

(** X9: the sorted time points are strictly increasing, so no two of them
    are equal, and a number is among them exactly when it is 0 or the start
    or the end of a property; this holds for every list of tracks. *)
Theorem sortedPoints_spec (tracks : list AnimationTrack) :
  StronglySorted Qlt (HandoffSpec.sortedPoints tracks) /\
  forall x : Q,
    InQ x (HandoffSpec.sortedPoints tracks)
    <-> x == 0 \/
        exists prop, In prop (HandoffSpec.allProps tracks) /\
                     is_boundary x prop.
Proof.
  split; [apply sortedPoints_strict|].
  intros x. rewrite sortedPoints_InQ, Exists_exists. reflexivity.
Qed.

Lemma Set_add_length s v :
  (length (Set_add s v) <= S (length s))%nat.
Proof.
  unfold Set_add. destruct (Set_has s v); [lia|].
  rewrite length_app. simpl. lia.
Qed.

Lemma forEach_length props :
  forall s,
    (length (fold_left
               (fun s p => Set_add (Set_add s (delay p)) (delay p + duration p))
               props s)
     <= length s + 2 * length props)%nat.
Proof.
  induction props as [|p props IH]; intros s; simpl; [lia|].
  eapply Nat.le_trans; [apply IH|].
  pose proof (Set_add_length s (delay p)).
  pose proof (Set_add_length (Set_add s (delay p)) (delay p + duration p)).
  lia.
Qed.

Lemma insert_length a l : length (insert a l) = S (length l).
Proof.
  induction l as [|b l IH]; [reflexivity|]. simpl.
  destruct (Qle_bool a b); simpl; [reflexivity|now rewrite IH].
Qed.

Lemma sort_length l : length (sort l) = length l.
Proof.
  induction l as [|a l IH]; [reflexivity|]. simpl.
  now rewrite insert_length, IH.
Qed.

Lemma walk_length tracks :
  forall pts cv, length (walk tracks pts cv) = (length pts - 1)%nat.
Proof.
  induction pts as [|a pts IH]; intros cv; [reflexivity|].
  destruct pts as [|b pts]; [reflexivity|].
  rewrite walk_cons. cbn [length]. rewrite IH. simpl. lia.
Qed.

(** X10: for every list of tracks the table has one entry for each time
    point, and there are at least one and at most twice the number of
    properties plus one of them. *)
Theorem table_size (tracks : list AnimationTrack) :
  length (HandoffSpec.visualMap tracks)
  = length (HandoffSpec.sortedPoints tracks) /\
  (1 <= length (HandoffSpec.sortedPoints tracks))%nat /\
  (length (HandoffSpec.sortedPoints tracks)
   <= 2 * length (HandoffSpec.allProps tracks) + 1)%nat.
Proof.
  assert (H1 : (1 <= length (HandoffSpec.sortedPoints tracks))%nat).
  { pose proof (sortedPoints_zero tracks) as Hz.
    destruct (HandoffSpec.sortedPoints tracks); [inversion Hz|simpl; lia]. }
  split; [|split; [assumption|]].
  - rewrite visualMap_walk. cbn [length]. rewrite walk_length. lia.
  - unfold HandoffSpec.sortedPoints, HandoffSpec.timePoints.
    rewrite sort_length.
    pose proof (forEach_length (HandoffSpec.allProps tracks) [0]) as H.
    simpl in H. lia.
Qed.



Lemma interp_beyond total t :
  forall rest prev,
    Forall (fun m => real m < t) rest ->
    interp total prev rest t = Some 100.
Proof.
  induction rest as [|e rest IH]; intros prev Hall; [reflexivity|].
  inversion Hall as [|? ? He Hrest]; subst. cbn [interp].
  apply Qle_bool_false in He. rewrite He. now apply IH.
Qed.

(** X3: for every list of tracks the percent function is 0 at every time
    up to 0 and 100 at every time after [totalDuration]. *)
Theorem getPercent_outside (tracks : list AnimationTrack) (t : Q) :
  (t <= 0 ->
   getPercent (HandoffSpec.createVisualTimeScale tracks) t = Some 0) /\
  (totalDuration (HandoffSpec.createVisualTimeScale tracks) < t ->
   getPercent (HandoffSpec.createVisualTimeScale tracks) t = Some 100).
Proof.
  cbn [getPercent totalDuration HandoffSpec.createVisualTimeScale].
  rewrite getPercent_interp. split; intros Ht.
  - apply Qle_bool_iff in Ht. now rewrite Ht.
  - assert (Hall : Forall (fun m => real m < t)
                     (HandoffSpec.visualMap tracks)).
    { apply Forall_forall. intros m Hm.
      pose proof (timePoint_le_max _ _ (visualMap_real_InQ _ _ Hm)). lra. }
    rewrite visualMap_walk in Hall.
    inversion Hall as [|? ? H0 Hrest]; subst.
    change (real origin) with 0 in H0.
    apply Qle_bool_false in H0. rewrite H0.
    now apply interp_beyond.
Qed.

Lemma getPercent_outside_witness :
  getPercent (HandoffSpec.createVisualTimeScale gap_tracks) (-1) = Some 0 /\
  getPercent (HandoffSpec.createVisualTimeScale gap_tracks) 6000 = Some 100.
Proof.
  split.
  - apply (getPercent_outside gap_tracks (-1)). cbv; discriminate.
  - apply (getPercent_outside gap_tracks 6000). reflexivity.
Defined.



(** ** Intervals that are not valid *)








Lemma totalDuration_is_max_witness :
  delay (mkProperty "p2" 5000 100)
  <= totalDuration (HandoffSpec.createVisualTimeScale gap_tracks) /\
  delay (mkProperty "p2" 5000 100) + duration (mkProperty "p2" 5000 100)
  <= totalDuration (HandoffSpec.createVisualTimeScale gap_tracks).
Proof.
  apply (proj1 (proj2 (totalDuration_is_max gap_tracks))).
  right. left. reflexivity.
Defined.
